(** * frida-trace: a shallow embedding of [index.js]

    The development follows the layout of the source file: JavaScript values
    and the host collaborators (Frida's [Memory], [Module], [Interceptor] and
    the user's callbacks) come first, then the value-type registry, the
    [Event] class, the argument descriptors, the action compiler
    ([computeActions]), the interception binder ([makeInterceptor]) and the
    target resolver ([trace]).  Theorems come after all definitions. *)

From Stdlib Require Import ZArith.
From stdpp Require Import gmap strings list fin_maps relations.

Local Open Scope list_scope.

(** ** JavaScript values *)

(** The values that flow through the tracer.  [VPtr] is Frida's
    [NativePointer]; [VBytes] is an [ArrayBuffer].  The last three are what
    reading a property of a plain object can find beyond the object's own
    properties: [VObjectPrototype] is the object [Object.prototype],
    [VObjectPrototypeMember key] is the function [Object.prototype[key]]
    ([Object] itself for ["constructor"]), and [VInherited object key] is
    whatever the engine finds for [key] on the host object [object] and its
    prototype chain; that depends on the engine's host objects and is not
    looked into (where its kind matters it counts as an object). *)
Inductive Value : Type :=
| VUndefined
| VNull
| VBool (b : bool)
| VNum (n : Z)
| VPtr (p : Z)
| VStr (s : string)
| VBytes (bs : list Z)
| VObjectPrototype
| VObjectPrototypeMember (key : string)
| VInherited (object : Value) (key : string).

(** What a JavaScript [throw] carries. *)
Inductive Exn : Type :=
| TypeError (msg : string)
| Error (msg : string)
| HostException (v : Value).

(** ToBoolean.  Objects are truthy; a value the model does not look into
    counts as one. *)
Definition truthy (v : Value) : bool :=
  match v with
  | VUndefined | VNull => false
  | VBool b => b
  | VNum n => negb (n =? 0)%Z
  | VPtr _ => true
  | VStr s => negb (String.eqb s "")
  | VBytes _ => true
  | VObjectPrototype | VObjectPrototypeMember _ => true
  | VInherited _ _ => true
  end.

(** ** Programs over host collaborators

    A computation either returns, throws, or calls a collaborator [c : C]
    and continues with the collaborator's answer (a value, or an exception
    thrown by the collaborator).  A program that is syntactically [Ret] or
    [Throw] calls no collaborator at all. *)
Inductive Prog (C A : Type) : Type :=
| Ret (a : A)
| Throw (e : Exn)
| Call (c : C) (k : Exn + Value → Prog C A).

Arguments Ret {C A} a.
Arguments Throw {C A} e.
Arguments Call {C A} c k.

(** Sequencing: [q] runs with the result of [p] unless [p] throws. *)
Fixpoint andThen {C A B} (p : Prog C A) (f : A → Prog C B) : Prog C B :=
  match p with
  | Ret a => f a
  | Throw e => Throw e
  | Call c k => Call c (λ r, andThen (k r) f)
  end.

Notation "'let*' x ':=' p 'in' q" := (andThen p (λ x, q))
  (at level 10, x name, p at level 100, q at level 200, only parsing).

(** Calling a collaborator the JavaScript way: an exception of the callee
    propagates to the caller. *)
Definition call {C} (c : C) : Prog C Value :=
  Call c (λ r, match r with inl e => Throw e | inr v => Ret v end).

(** [try { p } catch (e) { h e }]. *)
Fixpoint tryCatch {C A} (p : Prog C A) (h : Exn → Prog C A) : Prog C A :=
  match p with
  | Ret a => Ret a
  | Throw e => h e
  | Call c k => Call c (λ r, tryCatch (k r) h)
  end.

(** Running code of an inner layer inside an outer one. *)
Fixpoint lift {C D A} (inj : C → D) (p : Prog C A) : Prog D A :=
  match p with
  | Ret a => Ret a
  | Throw e => Throw e
  | Call c k => Call (inj c) (λ r, lift inj (k r))
  end.

(** A host answers calls and may change its own state while doing so (the
    traced process writes to memory between two reads).  [run] gives the
    outcome of a program, the calls it made in order, and the host's final
    state. *)
Fixpoint run {C A S} (respond : S → C → (Exn + Value) * S)
    (p : Prog C A) (s : S) : (Exn + A) * list C * S :=
  match p with
  | Ret a => (inr a, [], s)
  | Throw e => (inl e, [], s)
  | Call c k =>
      let '(r, s1) := respond s c in
      let '(o, cs, s2) := run respond (k r) s1 in
      (o, c :: cs, s2)
  end.

(** ** Collaborators *)

(** Frida's [Memory.read*] functions. *)
Inductive MemCall : Type :=
| ReadU8 (ptr : Value)
| ReadShort (ptr : Value)
| ReadInt (ptr : Value)
| ReadPointer (ptr : Value)
| ReadByteArray (ptr : Value) (length : Value)
| ReadUtf8String (ptr : Value) (length : Value)
| ReadUtf16String (ptr : Value) (length : Value).

(** [NativePointer.prototype.toInt32]: the low 32 bits, signed.  Calling
    the method on a value that is not a pointer is a [TypeError]. *)
Definition int32 (p : Z) : Z := ((p + 2 ^ 31) mod 2 ^ 32 - 2 ^ 31)%Z.

Definition toInt32 {C} (rawValue : Value) : Prog C Z :=
  match rawValue with
  | VPtr p => Ret (int32 p)
  | _ => Throw (TypeError "rawValue.toInt32 is not a function")
  end.

(** [NativePointer.prototype.isNull]. *)
Definition isNull {C} (rawValue : Value) : Prog C bool :=
  match rawValue with
  | VPtr p => Ret (p =? 0)%Z
  | _ => Throw (TypeError "rawValue.isNull is not a function")
  end.

(** ** Plain objects used as maps

    The source keeps named values in objects made by [{}]: the [args] of an
    event (line 403) and the [typeParameters] of a dependent-type action
    (lines 224 and 233).  Such an object has its own properties, kept in the
    order in which they were created, and a prototype, which is
    [Object.prototype] until an assignment to ["__proto__"] replaces it.

    [Object.prototype] is the one ECMAScript defines, unchanged by other
    scripts.  Once a host object (a [NativePointer], an [ArrayBuffer]) has
    been made the prototype, what reading finds through it is the engine's
    to say ([VInherited]), and an assignment is taken to act as it does
    through [Object.prototype]: host objects with read-only or accessor
    properties of the assigned name are not modelled. *)
Module Obj.

Record t : Type := {
  own : list (string * Value);
  proto : Value
}.

(** [{}]. *)
Definition empty : t := {| own := []; proto := VObjectPrototype |}.

Fixpoint assoc (key : string) (properties : list (string * Value))
    : option Value :=
  match properties with
  | [] => None
  | (k, v) :: rest => if decide (k = key) then Some v else assoc key rest
  end.

(** The own property [key], if the object has one. *)
Definition lookupOwn (key : string) (o : t) : option Value :=
  assoc key (own o).


(** Writing an own property: an existing one keeps its place, a new one is
    created after all the others. *)
Fixpoint update (key : string) (value : Value)
    (properties : list (string * Value)) : list (string * Value) :=
  match properties with
  | [] => [(key, value)]
  | (k, v) :: rest =>
      if decide (k = key) then (k, value) :: rest
      else (k, v) :: update key value rest
  end.

(** The properties of [Object.prototype] that are functions.  Its one
    other property, ["__proto__"], is an accessor. *)
Definition objectPrototypeFunctions : list string :=
  ["constructor"; "hasOwnProperty"; "isPrototypeOf"; "propertyIsEnumerable";
   "toLocaleString"; "toString"; "valueOf";
   "__defineGetter__"; "__defineSetter__"; "__lookupGetter__";
   "__lookupSetter__"].

(** What an object whose prototype is [proto] inherits for [key].  The
    getter of ["__proto__"] returns the prototype of the object that is
    read. *)
Definition inherited (key : string) (proto : Value) : Value :=
  match proto with
  | VNull => VUndefined
  | VObjectPrototype =>
      if decide (key = "__proto__") then VObjectPrototype
      else if decide (key ∈ objectPrototypeFunctions)
           then VObjectPrototypeMember key
           else VUndefined
  | object => VInherited object key
  end.

(** [o[key]]: the own property, or else what the prototype chain gives. *)
Definition get (key : string) (o : t) : Value :=
  match lookupOwn key o with
  | Some v => v
  | None => inherited key (proto o)
  end.

(** Is [value] an object or [null]?  The setter of ["__proto__"] takes
    such a value as the new prototype and ignores every other value. *)
Definition isPrototype (value : Value) : bool :=
  match value with
  | VUndefined | VBool _ | VNum _ | VStr _ => false
  | VNull => true
  | VPtr _ | VBytes _ | VObjectPrototype | VObjectPrototypeMember _
  | VInherited _ _ => true
  end.

(** Does the assignment [o[key] = ...] reach the setter of ["__proto__"]?
    It does unless the object has an own property of that name, or has no
    prototype to inherit the setter from. *)
Definition reachesSetter (key : string) (o : t) : bool :=
  bool_decide (key = "__proto__")
  && match lookupOwn key o with Some _ => false | None => true end
  && match proto o with VNull => false | _ => true end.

(** [o[key] = value].  The function-valued properties of [Object.prototype]
    are writable, so assigning to one of their names creates an own
    property like any other name does. *)
Definition set (key : string) (value : Value) (o : t) : t :=
  if reachesSetter key o
  then if isPrototype value
       then {| own := own o; proto := value |}
       else o
  else {| own := update key value (own o); proto := proto o |}.

End Obj.

(** ** Value types (lines 311-398)

    [parameters] is [undefined] ([None]) or the object built by a
    dependent-type action. *)
Definition Parameters : Type := option Obj.t.

(** [parameters.length]: a [TypeError] on [undefined], the property (or
    [undefined]) on an object. *)
Definition parameters_length {C} (parameters : Parameters) : Prog C Value :=
  match parameters with
  | None => Throw (TypeError "Cannot read property 'length' of undefined")
  | Some o => Ret (Obj.get "length" o)
  end.

Definition Reader : Type := Value → Parameters → Prog MemCall Value.

Record ValueType : Type := {
  parse : Value → Parameters → Prog MemCall Value;
  read : Reader
}.

(** [bool()]; the source's name is taken by Rocq's [bool]. *)
Definition bool_type : ValueType := {|
  parse rawValue _ := let* v := toInt32 rawValue in Ret (VBool (negb (v =? 0)%Z));
  read ptr _ := let* v := call (ReadU8 ptr) in Ret (VBool (truthy v))
|}.

(** [byte()]. *)
Definition byte_type : ValueType := {|
  parse rawValue _ := let* v := toInt32 rawValue in Ret (VNum (Z.land v 255));
  read ptr _ := call (ReadU8 ptr)
|}.

(** [short()]. *)
Definition short_type : ValueType := {|
  parse rawValue _ := let* v := toInt32 rawValue in Ret (VNum (Z.land v 65535));
  read ptr _ := call (ReadShort ptr)
|}.

(** [int()]. *)
Definition int_type : ValueType := {|
  parse rawValue _ := let* v := toInt32 rawValue in Ret (VNum v);
  read ptr _ := call (ReadInt ptr)
|}.

(** [pointer(pointee)]: [pointee] is [undefined] ([None]) or an object with
    a [read] method. *)
Definition pointer (pointee : option Reader) : ValueType := {|
  parse rawValue parameters :=
    match pointee with
    | Some pointee_read =>
        let* null := isNull rawValue in
        if null : bool then Ret VNull else pointee_read rawValue parameters
    | None => Ret rawValue
    end;
  read ptr _ := call (ReadPointer ptr)
|}.

Definition byteArray : ValueType :=
  pointer (Some (λ ptr parameters,
    let* length := parameters_length parameters in
    call (ReadByteArray ptr length))).

Definition utf8 : ValueType :=
  pointer (Some (λ ptr parameters,
    let* length := match parameters with
                   | None => Ret (VNum (-1))
                   | Some _ => parameters_length parameters
                   end in
    call (ReadUtf8String ptr length))).

Definition utf16 : ValueType :=
  pointer (Some (λ ptr parameters,
    let* length := match parameters with
                   | None => Ret (VNum (-1))
                   | Some _ => parameters_length parameters
                   end in
    call (ReadUtf16String ptr length))).

(** [trace.types]. *)
Definition BOOL : ValueType := bool_type.
Definition BYTE : ValueType := byte_type.
Definition SHORT : ValueType := short_type.
Definition INT : ValueType := int_type.
Definition POINTER : ValueType := pointer None.
Definition BYTE_ARRAY : ValueType := byteArray.
Definition UTF8 : ValueType := utf8.
Definition UTF16 : ValueType := utf16.

(** ** The [Event] class (lines 400-417)

    [args] is a plain object used as a map from names to values.  The
    [result] property does not exist until it is first assigned. *)
Module Event.

Record t : Type := {
  name : string;
  args : Obj.t;
  result : option Value
}.

Definition new (name : string) : t :=
  {| name := name; args := Obj.empty; result := None |}.

Definition get (key : string) (this : t) : Value :=
  if decide (key = "result")
  then default VUndefined (result this)
  else Obj.get key (args this).

Definition set (key : string) (value : Value) (this : t) : t :=
  if decide (key = "result")
  then {| name := name this; args := args this; result := Some value |}
  else {| name := name this; args := Obj.set key value (args this);
          result := result this |}.

(** The event's field set: does the event carry a field [key] of its own? *)
Definition has (key : string) (this : t) : Prop :=
  if decide (key = "result")
  then is_Some (result this)
  else is_Some (Obj.lookupOwn key (args this)).

End Event.

(** ** Argument descriptors (lines 239-309) *)

Inductive Direction : Type := IN | OUT | IN_OUT.

(** The object made by [bind(property, value)]. *)
Record Binding : Type := {
  property : string;
  bind_value : string
}.

Definition bind (property value : string) : Binding :=
  {| property := property; bind_value := value |}.

(** The object made by [when(value, predicate)].  The predicate is user code: it may read
    memory and it may throw; its result is used for its truthiness. *)
Record Condition : Type := {
  when_value : string;
  predicate : Value → Prog MemCall Value
}.

Definition when (value : string) (predicate : Value → Prog MemCall Value)
    : Condition :=
  {| when_value := value; predicate := predicate |}.

(** The [type] of a descriptor is a value type, or the array
    [[type, binding]] of a dependent type ([isArray(type)]). *)
Inductive ArgType : Type :=
| Plain (t : ValueType)
| Dependent (t : ValueType) (binding : Binding).

Record Arg : Type := {
  direction : Direction;
  name : string;
  type : ArgType;
  condition : option Condition;
  requires : list string
}.

Definition dependencies (direction : Direction) (type : ArgType)
    (condition : option Condition) : list string :=
  let result := [] in
  let result :=
    match direction with
    | OUT => result ++ ["$out"]
    | _ => result
    end in
  let result :=
    match type with
    | Dependent _ binding => result ++ [bind_value binding]
    | Plain _ => result
    end in
  let result :=
    match condition with
    | Some c => result ++ [when_value c]
    | None => result
    end in
  result.

(** [arg]; an omitted condition ([undefined]) becomes [null] ([None]). *)
Definition arg (direction : Direction) (name : string) (type : ArgType)
    (condition : option Condition) : Arg :=
  {| direction := direction;
     name := name;
     type := type;
     condition := condition;
     requires := dependencies direction type condition |}.

Definition argIn (name : string) (type : ArgType)
    (condition : option Condition) : Arg :=
  arg IN name type condition.

Definition argOut (name : string) (type : ArgType)
    (condition : option Condition) : Arg :=
  arg OUT name type condition.

Definition argInOut (name : string) (type : ArgType)
    (condition : option Condition) : Arg :=
  arg IN_OUT name type condition.

Definition retval (type : ArgType) (condition : option Condition) : Arg :=
  argOut "result" type condition.

(** [func(name, ret, args)]. *)
Record Func : Type := {
  func_name : string;
  ret : option Arg;
  args : list Arg
}.

Definition func (name : string) (ret : option Arg) (args : list Arg) : Func :=
  {| func_name := name; ret := ret; args := args |}.

(** An entry of [spec.functions] in vtable mode: a function, or the array
    [[n]] made by [padding(n)]. *)
Inductive Entry : Type :=
| Function (f : Func)
| Padding (n : Z).

Definition padding (n : Z) : Entry := Padding n.

(** ** Decode actions (lines 189-237)

    An action is the pair [[fn, params]] of one of the four reader
    functions and its parameter array. *)
Definition Parse : Type := Value → Parameters → Prog MemCall Value.

Inductive Action : Type :=
| ReadValue (index : nat) (name : string) (parse : Parse)
| ReadValueConditionally (index : nat) (name : string) (parse : Parse)
    (condition : Condition)
| ReadValueWithDependentType (index : nat) (name : string) (parse : Parse)
    (binding : Binding)
| ReadValueWithDependentTypeConditionally (index : nat) (name : string)
    (parse : Parse) (binding : Binding) (condition : Condition).

Definition action_index (a : Action) : nat :=
  match a with
  | ReadValue i _ _ | ReadValueConditionally i _ _ _
  | ReadValueWithDependentType i _ _ _
  | ReadValueWithDependentTypeConditionally i _ _ _ _ => i
  end.

Definition action_name (a : Action) : string :=
  match a with
  | ReadValue _ n _ | ReadValueConditionally _ n _ _
  | ReadValueWithDependentType _ n _ _
  | ReadValueWithDependentTypeConditionally _ n _ _ _ => n
  end.

Definition computeAction (arg : Arg) (index : nat) : Action :=
  match type arg, condition arg with
  | Dependent t binding, Some condition =>
      ReadValueWithDependentTypeConditionally index (name arg) (parse t)
        binding condition
  | Dependent t binding, None =>
      ReadValueWithDependentType index (name arg) (parse t) binding
  | Plain t, Some condition =>
      ReadValueConditionally index (name arg) (parse t) condition
  | Plain t, None =>
      ReadValue index (name arg) (parse t)
  end.

(** [values[index]]: [undefined] past the end of the array. *)
Definition nth_value (values : list Value) (index : nat) : Value :=
  default VUndefined (values !! index).

Definition readValue (values : list Value) (event : Event.t)
    (index : nat) (name : string) (parse : Parse) : Prog MemCall Event.t :=
  let* v := parse (nth_value values index) None in
  Ret (Event.set name v event).

Definition readValueConditionally (values : list Value) (event : Event.t)
    (index : nat) (name : string) (parse : Parse) (condition : Condition)
    : Prog MemCall Event.t :=
  let* c := predicate condition (Event.get (when_value condition) event) in
  if truthy c
  then let* v := parse (nth_value values index) None in
       Ret (Event.set name v event)
  else Ret event.

Definition readValueWithDependentType (values : list Value) (event : Event.t)
    (index : nat) (name : string) (parse : Parse) (binding : Binding)
    : Prog MemCall Event.t :=
  let typeParameters : Obj.t :=
    Obj.set (property binding) (Event.get (bind_value binding) event)
      Obj.empty in
  let* v := parse (nth_value values index) (Some typeParameters) in
  Ret (Event.set name v event).

Definition readValueWithDependentTypeConditionally (values : list Value)
    (event : Event.t) (index : nat) (name : string) (parse : Parse)
    (binding : Binding) (condition : Condition) : Prog MemCall Event.t :=
  let* c := predicate condition (Event.get (when_value condition) event) in
  if truthy c
  then let typeParameters : Obj.t :=
         Obj.set (property binding) (Event.get (bind_value binding) event)
           Obj.empty in
       let* v := parse (nth_value values index) (Some typeParameters) in
       Ret (Event.set name v event)
  else Ret event.

(** [action(values, event, params)]. *)
Definition runAction (a : Action) (values : list Value) (event : Event.t)
    : Prog MemCall Event.t :=
  match a with
  | ReadValue i n p => readValue values event i n p
  | ReadValueConditionally i n p c => readValueConditionally values event i n p c
  | ReadValueWithDependentType i n p b =>
      readValueWithDependentType values event i n p b
  | ReadValueWithDependentTypeConditionally i n p b c =>
      readValueWithDependentTypeConditionally values event i n p b c
  end.

(** [for (let i = 0; i !== n; i++) { actions[i](values, event) }]. *)
Fixpoint runActions (actions : list Action) (values : list Value)
    (event : Event.t) : Prog MemCall Event.t :=
  match actions with
  | [] => Ret event
  | a :: rest =>
      let* event := runAction a values event in
      runActions rest values event
  end.

(** ** The action compiler (lines 145-187) *)

(** The body of the [forEach] callback of both loops: [satisfied] is the
    set of names scheduled so far, [actions] the action list being
    filled. *)
Definition visit (acc : gset string * list Action) (index : nat) (arg : Arg)
    : gset string * list Action :=
  let '(satisfied, actions) := acc in
  if decide (name arg ∈ satisfied) then acc
  else
    let remaining := filter (λ dep, dep ∉ satisfied) (requires arg) in
    if decide (length remaining = 0)
    then (satisfied ∪ {[name arg]}, actions ++ [computeAction arg index])
    else acc.

(** [args.forEach(function (arg, index) { ... })], from position [index]. *)
Fixpoint forEachIndexed (index : nat) (args : list Arg)
    (acc : gset string * list Action) : gset string * list Action :=
  match args with
  | [] => acc
  | arg :: rest => forEachIndexed (S index) rest (visit acc index arg)
  end.

Definition scan (args : list Arg) (acc : gset string * list Action)
    : gset string * list Action :=
  forEachIndexed 0 args acc.

(** [do { scan } while (satisfied.size !== previousSatisfiedSize)], with a
    bound on the number of scans; [None] when the bound is reached. *)
Fixpoint doWhile (fuel : nat) (args : list Arg)
    (acc : gset string * list Action) : option (gset string * list Action) :=
  match fuel with
  | O => None
  | S fuel' =>
      let previousSatisfiedSize := size acc.1 in
      let acc' := scan args acc in
      if decide (size acc'.1 ≠ previousSatisfiedSize)
      then doWhile fuel' args acc'
      else Some acc'
  end.

(** [func.args.slice()] with [func.ret] pushed when it is not [null]. *)
Definition allArgs (func : Func) : list Arg :=
  args func ++ match ret func with Some r => [r] | None => [] end.

(** [computeActions]: the returned triple is the boolean result and the
    final contents of the two arrays the caller passed in empty. *)
Definition computeActionsWithin (fuel : nat) (func : Func)
    : option (bool * list Action * list Action) :=
  let args := allArgs func in
  '(satisfied, inputActions) ← doWhile fuel args (∅, []);
  let satisfied := satisfied ∪ {["$out"]} in
  '(satisfied, outputActions) ← doWhile fuel args (satisfied, []);
  Some (negb (existsb (λ arg, negb (bool_decide (name arg ∈ satisfied))) args),
        inputActions, outputActions).

(** Each scan but the last schedules a descriptor, so one scan more than
    there are descriptors is enough for either loop
    (see [computeActions_terminates]). *)
Definition computeActions (func : Func)
    : option (bool * list Action * list Action) :=
  computeActionsWithin (S (length (allArgs func))) func.

(** ** The interception binder (lines 89-143) *)

Inductive TraceError : Type :=
| FailedToResolve (module name : string)
| FailedToReadVtable (offset : Z) (e : Exn)
| CircularDependencies (name : string).

(** What a hook can reach at run time: memory, and the two sinks
    [onEvent] and [onError] of [spec.callbacks]. *)
Inductive HookCall : Type :=
| Memory (c : MemCall)
| OnEvent (event : Event.t)
| OnError (err : TraceError).

(** The optional user hooks of [spec.callbacks].  They get the event and
    may change it, may read memory and may throw; [args] gives the raw word
    of every argument position.  What a user hook stores on its own in the
    invocation context [this] is not modelled: the binder overwrites
    [this.values] and [this.event] after [onEnter] and reads nothing else
    from [this]. *)
Record Callbacks : Type := {
  onEnter : option (Event.t → (nat → Z) → Prog MemCall Event.t);
  onLeave : option (Event.t → Z → Prog MemCall Event.t)
}.

(** The per-invocation context [this]: [this.values] and [this.event]. *)
Record Invocation : Type := {
  values : list Value;
  event : Event.t
}.

(** The callbacks object handed to [Interceptor.attach]. *)
Record Hook : Type := {
  hook_onEnter : (nat → Z) → Prog HookCall Invocation;
  hook_onLeave : Invocation → Z → Prog HookCall unit
}.

Definition makeHook (callbacks : Callbacks) (name : string) (numArgs : nat)
    (inputActions outputActions : list Action) : Hook := {|
  hook_onEnter args :=
    let values := (λ i, VPtr (args i)) <$> seq 0 numArgs in
    let event := Event.new name in
    let* event := lift Memory (runActions inputActions values event) in
    let* event := match onEnter callbacks with
                  | Some onEnter => lift Memory (onEnter event args)
                  | None => Ret event
                  end in
    Ret {| values := values; event := event |};
  hook_onLeave this retval :=
    let values := values this ++ [VPtr retval] in
    let event := event this in
    let* event := lift Memory (runActions outputActions values event) in
    let* event := match onLeave callbacks with
                  | Some onLeave => lift Memory (onLeave event retval)
                  | None => Ret event
                  end in
    let* _ := call (OnEvent event) in
    Ret tt
|}.

(** What the setup code can reach: everything a hook can, plus
    [Module.findExportByName] and [Interceptor.attach]. *)
Inductive SetupCall : Type :=
| Runtime (c : HookCall)
| FindExportByName (module name : string)
| Attach (impl : Value) (hook : Hook).

(** The body of the function that [makeInterceptor(spec)] returns;
    [callbacks] is [spec.callbacks], over which that function closes. *)
Definition intercept (callbacks : Callbacks) (func : Func) (impl : Value)
    : Prog SetupCall unit :=
  let name := func_name func in
  match computeActions func with
  | Some (true, inputActions, outputActions) =>
      let numArgs := length (args func) in
      let* _ := call (Attach impl
                  (makeHook callbacks name numArgs inputActions outputActions)) in
      Ret tt
  | Some (false, _, _) =>
      let* _ := call (Runtime (OnError (CircularDependencies name))) in
      Ret tt
  | None => Throw (Error "computeActions did not return")
  end.

(** ** The target resolver (lines 13-57) *)

(** [spec.module] wins over [spec.vtable]; with neither, [trace] throws. *)
Inductive Locator : Type :=
| InModule (module : string) (functions : list Func)
| InVtable (vtable : Z) (functions : list Entry)
| Unspecified.

Record Spec : Type := {
  locator : Locator;
  callbacks : Callbacks
}.

Definition makeInterceptor (spec : Spec) : Func → Value → Prog SetupCall unit :=
  intercept (callbacks spec).

Fixpoint forEach {C A} (f : A → Prog C unit) (l : list A) : Prog C unit :=
  match l with
  | [] => Ret tt
  | x :: rest => let* _ := f x in forEach f rest
  end.

(** The callback of [functions.forEach] in module mode. *)
Definition resolveByName (intercept : Func → Value → Prog SetupCall unit)
    (module : string) (func : Func) : Prog SetupCall unit :=
  let name := func_name func in
  let* impl := call (FindExportByName module name) in
  match impl with
  | VNull =>
      let* _ := call (Runtime (OnError (FailedToResolve module name))) in
      Ret tt
  | _ => intercept func impl
  end.

Section Resolver.

(** [Process.pointerSize]. *)
Variable pointerSize : Z.

(** [NativePointer.prototype.add]: pointer arithmetic wraps at the pointer
    width. *)
Definition NativePointer_add (ptr rhs : Z) : Z :=
  ((ptr + rhs) mod 2 ^ (8 * pointerSize))%Z.

(** The [for (let entry of functions)] loop of vtable mode, entered with
    the current [offset]. *)
Fixpoint walkVtable (intercept : Func → Value → Prog SetupCall unit)
    (vtable offset : Z) (entries : list Entry) : Prog SetupCall unit :=
  match entries with
  | [] => Ret tt
  | Padding n :: rest =>
      walkVtable intercept vtable (offset + n * pointerSize)%Z rest
  | Function entry :: rest =>
      let* r := tryCatch
          (let* impl := call (Runtime (Memory
                          (ReadPointer (VPtr (NativePointer_add vtable offset))))) in
           Ret (inr impl))
          (λ e, Ret (inl e)) in
      match r with
      | inl e =>
          let* _ := call (Runtime (OnError (FailedToReadVtable offset e))) in
          Ret tt
      | inr impl =>
          let* _ := intercept entry impl in
          walkVtable intercept vtable (offset + pointerSize)%Z rest
      end
  end.

Definition trace (spec : Spec) : Prog SetupCall unit :=
  let intercept := makeInterceptor spec in
  match locator spec with
  | InModule module functions =>
      forEach (resolveByName intercept module) functions
  | InVtable vtable functions =>
      walkVtable intercept vtable 0 functions
  | Unspecified =>
      Throw (Error "Either a module or a vtable must be specified")
  end.

End Resolver.

(** ** Vocabulary of the specification *)

Definition names (args : list Arg) : list string := name <$> args.

(** "[name] must be unique per function schema". *)
Definition uniqueNames (args : list Arg) : Prop := NoDup (names args).

(** The dependency graph of a schema: the descriptor named [s] requires
    [t]. *)
Definition dependsOn (args : list Arg) (s t : string) : Prop :=
  ∃ a, a ∈ args ∧ name a = s ∧ t ∈ requires a.

Definition hasCycle (args : list Arg) : Prop :=
  ∃ s, tc (dependsOn args) s s.

(** The edges of the dependency graph, listed. *)
Definition edges (args : list Arg) : list (string * string) :=
  a ← args; (λ t, (name a, t)) <$> requires a.

(** Every required name is the sentinel or names a descriptor of the
    schema. *)
Definition resolvable (args : list Arg) : Prop :=
  ∀ a dep, a ∈ args → dep ∈ requires a → dep = "$out" ∨ dep ∈ names args.

(** The position and name of each action of a list. *)
Definition layout (actions : list Action) : list (nat * string) :=
  (λ a, (action_index a, action_name a)) <$> actions.

(** The source names of a descriptor's binding and condition. *)
Definition bindingSource (type : ArgType) : option string :=
  match type with
  | Dependent _ binding => Some (bind_value binding)
  | Plain _ => None
  end.

Definition conditionSource (condition : option Condition) : option string :=
  when_value <$> condition.

(** The prototype of the object is [Object.prototype], as for every
    object made by [{}], or [null]: it is not a host object, whose
    properties the engine defines. *)
Definition plainPrototype (o : Obj.t) : bool :=
  match Obj.proto o with
  | VObjectPrototype | VNull => true
  | _ => false
  end.

Definition isMemory (c : HookCall) : Prop := ∃ m, c = Memory m.

Definition memoryReads (calls : list SetupCall) : list MemCall :=
  omap (λ c, match c with Runtime (Memory m) => Some m | _ => None end) calls.

Definition isAttach (c : SetupCall) : bool :=
  match c with Attach _ _ => true | _ => false end.

(** The exit hook fails before delivery: an exit action raises, or the
    actions succeed and the user's [onLeave] raises. *)
Inductive exitRaises {S} (respond : S → HookCall → (Exn + Value) * S)
    (callbacks : Callbacks) (outputActions : list Action)
    (this : Invocation) (retval : Z) (s : S)
    : Exn → list HookCall → S → Prop :=
| actionRaises e calls s' :
    run respond (lift Memory (runActions outputActions
                   (values this ++ [VPtr retval]) (event this))) s
      = (inl e, calls, s') →
    exitRaises respond callbacks outputActions this retval s e calls s'
| userHookRaises ev calls1 s1 userLeave e calls2 s' :
    run respond (lift Memory (runActions outputActions
                   (values this ++ [VPtr retval]) (event this))) s
      = (inr ev, calls1, s1) →
    onLeave callbacks = Some userLeave →
    run respond (lift Memory (userLeave ev retval)) s1
      = (inl e, calls2, s') →
    exitRaises respond callbacks outputActions this retval s e
      (calls1 ++ calls2) s'.

(** Modelled from the spec: the interception mechanism behind
    [Interceptor.attach], which is not part of this repository.  Per
    invocation of the traced function it runs the entry hook, then the exit
    hook with the context the entry hook filled; an exception leaving a hook
    ends the callbacks of that invocation only. *)
Definition invoke (hook : Hook) (args : nat → Z) (retval : Z)
    : Prog HookCall unit :=
  let* this := hook_onEnter hook args in
  hook_onLeave hook this retval.

Fixpoint invokeAll (hook : Hook) (invocations : list ((nat → Z) * Z))
    : Prog HookCall (list (Exn + unit)) :=
  match invocations with
  | [] => Ret []
  | (args, retval) :: rest =>
      let* o := tryCatch (let* u := invoke hook args retval in Ret (inr u))
                         (λ e, Ret (inl e)) in
      let* os := invokeAll hook rest in
      Ret (o :: os)
  end.

(** ** Invariants of the compiler *)

(** No descriptor is ready: every unscheduled one waits for a name that is
    not satisfied. *)
Definition quiescent (args : list Arg) (satisfied : gset string) : Prop :=
  ∀ a, a ∈ args → name a ∉ satisfied →
       ∃ dep, dep ∈ requires a ∧ dep ∉ satisfied.

(** The number of descriptors not yet scheduled. *)
Definition pending (args : list Arg) (satisfied : gset string) : nat :=
  length (filter (λ a, name a ∉ satisfied) args).

(** The action list of a loop started from [initial] mirrors the names
    the loop added: one action per added name, compiled from the
    descriptor at the action's position. *)
Definition scheduled (args : list Arg) (initial : gset string)
    (acc : gset string * list Action) : Prop :=
  acc.1 = initial ∪ list_to_set (action_name <$> acc.2)
  ∧ NoDup (action_name <$> acc.2)
  ∧ (∀ n, n ∈ action_name <$> acc.2 → n ∉ initial)
  ∧ Forall (λ act, ∃ a, args !! action_index act = Some a
                        ∧ act = computeAction a (action_index act)) acc.2.

(** No satisfied name lies on a dependency cycle. *)
Definition cycleFree (args : list Arg) (satisfied : gset string) : Prop :=
  ∀ s, s ∈ satisfied → ¬ tc (dependsOn args) s s.

(** What [computeActions] returns, with each action shown as its position
    and name. *)
Definition schedule (func : Func)
    : option (bool * list (nat * string) * list (nat * string)) :=
  (λ '(ok, inputActions, outputActions),
     (ok, layout inputActions, layout outputActions)) <$> computeActions func.

(** ** Example schemas and hosts *)

(** [x => x > 0]. *)
Definition isPositive (x : Value) : Prog MemCall Value :=
  match x with
  | VNum n => Ret (VBool (0 <? n)%Z)
  | _ => Ret (VBool false)
  end.

Definition noHooks : Callbacks := {| onEnter := None; onLeave := None |}.

(** A host that answers every call with [undefined]. *)
Definition quietHost {C} (s : unit) (c : C) : (Exn + Value) * unit :=
  (inr VUndefined, s).

(** [[argIn("a", INT), argOut("b", INT, when("a", x => x > 0)), retval(INT)]]. *)
Definition roundTrip : Func :=
  func "f" (Some (retval (Plain INT) None))
    [argIn "a" (Plain INT) None;
     argOut "b" (Plain INT) (Some (when "a" isPositive))].

Definition inOutOnly : Func :=
  func "f" None [argInOut "x" (Plain INT) None].

Definition dangling : Func :=
  func "f" None [argIn "x" (Plain INT) (Some (when "y" isPositive))].

Definition sentinelNamed : Func :=
  func "f" None
    [argIn "$out" (Plain INT) (Some (when "b" isPositive));
     argOut "b" (Plain INT) None].

Definition mutual : Func :=
  func "f" None
    [argIn "a" (Plain INT) (Some (when "b" isPositive));
     argIn "b" (Plain INT) (Some (when "a" isPositive))].

Definition bufferOut : Func :=
  func "g" None [argOut "buf" (Plain BYTE_ARRAY) None].

Definition shadowed : Func :=
  func "f" None
    [argIn "x" (Plain INT) (Some (when "y" isPositive));
     argIn "y" (Plain INT) (Some (when "x" isPositive));
     argIn "x" (Plain INT) None].

(** The hook [intercept] attaches for [bufferOut]. *)
Definition bufferOutHook : Hook :=
  makeHook noHooks "g" 1 []
    [computeAction (argOut "buf" (Plain BYTE_ARRAY) None) 0].

(** The hook [intercept] attaches for [roundTrip]. *)
Definition roundTripHook : Hook :=
  makeHook noHooks "f" 2
    [computeAction (argIn "a" (Plain INT) None) 0]
    [computeAction (argOut "b" (Plain INT) (Some (when "a" isPositive))) 1;
     computeAction (retval (Plain INT) None) 2].

Definition lengthThenBuffer : Func :=
  func "h" None
    [argIn "len" (Plain INT) None;
     argIn "buf" (Dependent BYTE_ARRAY (bind "length" "len")) None].


(** ** Vocabulary for further properties *)

(** The actions of the descriptors that [keep] selects, in declaration
    order, each compiled at its position; [index] is the position of the
    first descriptor of [args]. *)
Fixpoint compileWhere (keep : Arg → bool) (index : nat) (args : list Arg)
    : list Action :=
  match args with
  | [] => []
  | a :: rest =>
      (if keep a then [computeAction a index] else [])
      ++ compileWhere keep (S index) rest
  end.

Definition requiresNothing (a : Arg) : bool := bool_decide (requires a = []).

(** The number of vtable slots an entry takes. *)
Definition slotsOf (entry : Entry) : Z :=
  match entry with
  | Function _ => 1
  | Padding n => n
  end.

Definition slotsBefore (entries : list Entry) : Z :=
  foldr (λ entry total, slotsOf entry + total)%Z 0%Z entries.

Definition isFunction (entry : Entry) : bool :=
  match entry with Function _ => true | Padding _ => false end.

(** A host that answers every call with a value. *)
Definition answers {S C} (respond : S → C → (Exn + Value) * S) : Prop :=
  ∀ s c, ∃ v s', respond s c = (inr v, s').

Definition exportLookups (calls : list SetupCall) : list (string * string) :=
  omap (λ c, match c with FindExportByName m n => Some (m, n) | _ => None end)
    calls.

Definition isOnEvent (c : HookCall) : bool :=
  match c with OnEvent _ => true | _ => false end.

Definition isOnError (c : HookCall) : bool :=
  match c with OnError _ => true | _ => false end.

(** The field [key] of an event, if the event has it. *)
Definition fieldOf (key : string) (e : Event.t) : option Value :=
  if decide (key = "result") then Event.result e
  else Obj.lookupOwn key (Event.args e).

(** Every action of [acc] is compiled from the descriptor at its position,
    and what that descriptor requires is in [initial] or is the name of an
    earlier action. *)
Definition ordered (args : list Arg) (initial : gset string)
    (acc : gset string * list Action) : Prop :=
  ∀ k act, acc.2 !! k = Some act →
    ∃ a, args !! action_index act = Some a
         ∧ act = computeAction a (action_index act)
         ∧ ∀ dep, dep ∈ requires a →
                  dep ∈ initial ∨ dep ∈ action_name <$> take k acc.2.

Definition plainMix : Func :=
  func "f" (Some (retval (Plain INT) None))
    [argIn "a" (Plain INT) None;
     argOut "b" (Plain UTF8) None;
     argInOut "c" (Plain POINTER) None].

(** * Theorems *)

(** ** Facts about programs *)

Section ProgFacts.
Context {C S : Type} (respond : S → C → (Exn + Value) * S).

Lemma run_andThen {A B} (p : Prog C A) (f : A → Prog C B) (s : S) :
  run respond (andThen p f) s =
  match run respond p s with
  | (inr a, cs, s1) =>
      let '(o, cs', s2) := run respond (f a) s1 in (o, cs ++ cs', s2)
  | (inl e, cs, s1) => (inl e, cs, s1)
  end.
Proof.
  revert s. induction p as [a|e|c k IH]; intros s; simpl.
  - by destruct (run respond (f a) s) as [[o cs] s2].
  - done.
  - destruct (respond s c) as [r s1]. rewrite IH.
    destruct (run respond (k r) s1) as [[[e|a] cs] s2]; [done|].
    by destruct (run respond (f a) s2) as [[o cs'] s3].
Qed.

Lemma run_call (c : C) (s : S) :
  run respond (call c) s = ((respond s c).1, [c], (respond s c).2).
Proof.
  unfold call. simpl. by destruct (respond s c) as [[e|v] s1].
Qed.

End ProgFacts.

Lemma run_lift_calls {C D A S} (respond : S → D → (Exn + Value) * S)
    (inj : C → D) (p : Prog C A) (s : S) :
  Forall (λ d, ∃ c, d = inj c) (run respond (lift inj p) s).1.2.
Proof.
  revert s. induction p as [a|e|c k IH]; intros s; simpl; try by constructor.
  destruct (respond s (inj c)) as [r s1]. specialize (IH r s1).
  destruct (run respond (lift inj (k r)) s1) as [[o cs] s2]. simpl in *.
  constructor; eauto.
Qed.

(** ** The value-type registry *)

(** C5: decoding the null pointer with a pointer type that has an inner
    reader -- [pointer(T)] for any reader [T], and so [byteArray()],
    [utf8()] and [utf16()] -- is the program [Ret VNull]: the decoded value
    is [null], and no collaborator is called; run on any host, it makes no
    call and leaves the host as it was. *)
Theorem parse_null_pointer (pointee : Reader) (parameters : Parameters) :
  parse (pointer (Some pointee)) (VPtr 0) parameters = Ret VNull
  ∧ (∀ T : ValueType,
       parse (pointer (Some (read T))) (VPtr 0) parameters = Ret VNull)
  ∧ parse BYTE_ARRAY (VPtr 0) parameters = Ret VNull
  ∧ parse UTF8 (VPtr 0) parameters = Ret VNull
  ∧ parse UTF16 (VPtr 0) parameters = Ret VNull
  ∧ ∀ S (respond : S → MemCall → (Exn + Value) * S) (s : S),
      run respond (parse (pointer (Some pointee)) (VPtr 0) parameters) s
      = (inr VNull, [], s).
Proof. by repeat split. Qed.

(** C10: [POINTER.parse] returns the raw word itself, for every raw word,
    the null pointer included, and calls no collaborator. *)
Theorem parse_plain_pointer_identity (rawValue : Value)
    (parameters : Parameters) :
  parse POINTER rawValue parameters = Ret rawValue
  ∧ parse POINTER (VPtr 0) parameters = Ret (VPtr 0)
  ∧ VPtr 0 ≠ VNull
  ∧ ∀ S (respond : S → MemCall → (Exn + Value) * S) (s : S),
      run respond (parse POINTER rawValue parameters) s = (inr rawValue, [], s).
Proof. by repeat split. Qed.

(** C9: with no type parameters, [BYTE_ARRAY.parse] of a non-null pointer
    throws a [TypeError] before any memory is read, while [UTF8] and [UTF16]
    read with length [-1]; so a byte buffer that decodes without throwing
    that error was given type parameters.  The action compiled for a
    descriptor of plain type [BYTE_ARRAY] passes none, and throws. *)
Theorem byteArray_needs_length (p : Z) (Hp : p ≠ 0%Z) :
  parse BYTE_ARRAY (VPtr p) None
    = Throw (TypeError "Cannot read property 'length' of undefined")
  ∧ parse UTF8 (VPtr p) None = call (ReadUtf8String (VPtr p) (VNum (-1)))
  ∧ parse UTF16 (VPtr p) None = call (ReadUtf16String (VPtr p) (VNum (-1)))
  ∧ (∀ parameters,
       parse BYTE_ARRAY (VPtr p) parameters
         ≠ Throw (TypeError "Cannot read property 'length' of undefined") →
       is_Some parameters)
  ∧ (∀ direction name index values event,
       values !! index = Some (VPtr p) →
       runAction (computeAction (arg direction name (Plain BYTE_ARRAY) None) index)
         values event
       = Throw (TypeError "Cannot read property 'length' of undefined")).
Proof.
  assert (Hnull : (p =? 0)%Z = false) by by apply Z.eqb_neq.
  assert (Hthrow : parse BYTE_ARRAY (VPtr p) None
    = Throw (TypeError "Cannot read property 'length' of undefined")).
  { simpl. by rewrite Hnull. }
  split_and!.
  - done.
  - simpl. by rewrite Hnull.
  - simpl. by rewrite Hnull.
  - intros [m|] H; [by eexists | done].
  - intros direction name index values event Hv.
    simpl. unfold readValue, nth_value. rewrite Hv. simpl.
    fold (parse BYTE_ARRAY (VPtr p) None). by rewrite Hnull.
Qed.

Lemma byteArray_needs_length_witness :
  parse BYTE_ARRAY (VPtr 4096) None
    = Throw (TypeError "Cannot read property 'length' of undefined").
Proof. apply (byteArray_needs_length 4096). done. Defined.

(** ** The [Event] class *)

(** The own properties of a plain object. *)
Lemma assoc_update_eq (k : string) (v : Value) (l : list (string * Value)) :
  Obj.assoc k (Obj.update k v l) = Some v.
Proof.
  induction l as [|[k0 v0] l IH]; simpl.
  - by rewrite decide_True.
  - destruct (decide (k0 = k)) as [->|Hne]; simpl.
    + by rewrite decide_True.
    + by rewrite decide_False.
Qed.

Lemma assoc_update_ne (k k' : string) (v : Value) (l : list (string * Value)) :
  k' ≠ k → Obj.assoc k' (Obj.update k v l) = Obj.assoc k' l.
Proof.
  intros Hne. induction l as [|[k0 v0] l IH]; simpl.
  - by rewrite decide_False.
  - destruct (decide (k0 = k)) as [->|Hk0]; simpl.
    + by rewrite !decide_False.
    + by rewrite IH.
Qed.


Lemma keys_update_new (k : string) (v : Value) (l : list (string * Value)) :
  Obj.assoc k l = None → (Obj.update k v l).*1 = l.*1 ++ [k].
Proof.
  induction l as [|[k0 v0] l IH]; [done|]. cbn [Obj.assoc Obj.update].
  destruct (decide (k0 = k)) as [->|Hne]; [done|].
  intros H. rewrite !fmap_cons, IH by done. done.
Qed.

(** An assignment to a name other than ["__proto__"] writes an own
    property. *)
Lemma Obj_set_ordinary (k : string) (v : Value) (o : Obj.t) :
  k ≠ "__proto__" →
  Obj.set k v o = {| Obj.own := Obj.update k v (Obj.own o);
                     Obj.proto := Obj.proto o |}.
Proof.
  intros Hk. unfold Obj.set, Obj.reachesSetter.
  by rewrite bool_decide_eq_false_2.
Qed.

(** An assignment leaves the own properties of every other name alone,
    whatever the name assigned to. *)
Lemma Obj_lookupOwn_set_ne (k k' : string) (v : Value) (o : Obj.t) :
  k' ≠ k → Obj.lookupOwn k' (Obj.set k v o) = Obj.lookupOwn k' o.
Proof.
  intros Hne. unfold Obj.set.
  destruct (Obj.reachesSetter k o); [by destruct (Obj.isPrototype v)|].
  unfold Obj.lookupOwn. simpl. by apply assoc_update_ne.
Qed.

Lemma Obj_get_set_eq (k : string) (v : Value) (o : Obj.t) :
  k ≠ "__proto__" → Obj.get k (Obj.set k v o) = v.
Proof.
  intros Hk. rewrite Obj_set_ordinary by done.
  unfold Obj.get, Obj.lookupOwn. simpl. by rewrite assoc_update_eq.
Qed.

Lemma Obj_get_set_ne (k k' : string) (v : Value) (o : Obj.t) :
  k ≠ "__proto__" → k' ≠ k → Obj.get k' (Obj.set k v o) = Obj.get k' o.
Proof.
  intros Hk Hne. rewrite Obj_set_ordinary by done.
  unfold Obj.get, Obj.lookupOwn. simpl. by rewrite assoc_update_ne.
Qed.

(** Against C8 as stated, at the key ["__proto__"]: on a fresh event
    [set("__proto__", 5)] stores nothing -- the event is as before, has no
    field of that name, and [get("__proto__")] returns [Object.prototype],
    not [5] -- and [set("__proto__", null)] changes what [get] returns for
    another key: [get("constructor")] is the inherited function before and
    [undefined] after. *)
Lemma Event_set_proto_stores_nothing :
  "__proto__" ≠ "result"
  ∧ Event.set "__proto__" (VNum 5) (Event.new "f") = Event.new "f"
  ∧ ¬ Event.has "__proto__" (Event.set "__proto__" (VNum 5) (Event.new "f"))
  ∧ Event.get "__proto__" (Event.set "__proto__" (VNum 5) (Event.new "f"))
    = VObjectPrototype
  ∧ Event.get "constructor" (Event.new "f")
    = VObjectPrototypeMember "constructor"
  ∧ Event.get "constructor" (Event.set "__proto__" VNull (Event.new "f"))
    = VUndefined.
Proof.
  split_and!; try done.
  intros H. by apply is_Some_None in H.
Qed.

(** C8, amended: [set("result", v)] writes the [result] field only, and
    [get("result")] reads it.  On an event whose [args] object has
    [Object.prototype] or [null] as its prototype, [set(k, v)] for a key
    other than ["result"] and ["__proto__"] stores [v] as the own property
    [k] of [args], so that [get(k)] returns [v]; [result], the prototype,
    every other own property, and what [get] returns for every other key
    are as before.  [set("__proto__", v)] on an [args] object that has a
    prototype and no own property of that name creates no property: it
    makes [v] the prototype when [v] is an object or [null] and changes
    nothing otherwise.  For a key other than ["result"], [get] returns
    [args[key]]: the own property or, without one, what [args] inherits. *)
Theorem Event_set_get_frame (e : Event.t) (k k' : string) (v : Value)
    (Hk : k ≠ "result") (Hproto : k ≠ "__proto__") (Hk' : k' ≠ k)
    (Hplain : plainPrototype (Event.args e) = true) :
  Event.result (Event.set "result" v e) = Some v
  ∧ Event.args (Event.set "result" v e) = Event.args e
  ∧ Event.get "result" e = default VUndefined (Event.result e)
  ∧ Event.get "result" (Event.set "result" v e) = v
  ∧ Obj.lookupOwn k (Event.args (Event.set k v e)) = Some v
  ∧ Obj.lookupOwn k' (Event.args (Event.set k v e))
    = Obj.lookupOwn k' (Event.args e)
  ∧ Obj.proto (Event.args (Event.set k v e)) = Obj.proto (Event.args e)
  ∧ Event.result (Event.set k v e) = Event.result e
  ∧ Event.get k e = Obj.get k (Event.args e)
  ∧ Event.get k (Event.set k v e) = v
  ∧ Event.get k' (Event.set k v e) = Event.get k' e
  ∧ Event.name (Event.set "result" v e) = Event.name e
  ∧ Event.name (Event.set k v e) = Event.name e
  ∧ (Obj.lookupOwn "__proto__" (Event.args e) = None →
     Obj.proto (Event.args e) ≠ VNull →
     Obj.own (Event.args (Event.set "__proto__" v e)) = Obj.own (Event.args e)
     ∧ Obj.proto (Event.args (Event.set "__proto__" v e))
       = (if Obj.isPrototype v then v else Obj.proto (Event.args e))
     ∧ Event.result (Event.set "__proto__" v e) = Event.result e).
Proof.
  unfold Event.set, Event.get.
  rewrite !(decide_True (P := "result" = "result")) by done.
  rewrite !(decide_False (P := k = "result")) by done.
  rewrite !(decide_False (P := "__proto__" = "result")) by done. simpl.
  split_and!; try done.
  - rewrite Obj_set_ordinary by done. unfold Obj.lookupOwn. simpl.
    apply assoc_update_eq.
  - by apply Obj_lookupOwn_set_ne.
  - by rewrite Obj_set_ordinary.
  - by apply Obj_get_set_eq.
  - destruct (decide (k' = "result")); [done|]. by apply Obj_get_set_ne.
  - intros Hown Hnull. unfold Obj.set, Obj.reachesSetter. rewrite Hown.
    rewrite bool_decide_eq_true_2 by done.
    assert (Hreach : match Obj.proto (Event.args e) with
                     | VNull => false | _ => true end = true)
      by by destruct (Obj.proto (Event.args e)).
    rewrite Hreach. simpl. by destruct (Obj.isPrototype v).
Qed.

Lemma Event_set_get_frame_witness :
  Obj.lookupOwn "b" (Event.args (Event.set "a" (VNum 1) (Event.new "f"))) = None
  ∧ Event.get "a" (Event.set "a" (VNum 1) (Event.new "f")) = VNum 1.
Proof.
  pose proof (Event_set_get_frame (Event.new "f") "a" "b" (VNum 1)
                ltac:(done) ltac:(done) ltac:(done) ltac:(reflexivity)) as H.
  split; [rewrite (proj1 (proj2 (proj2 (proj2 (proj2 (proj2 H)))))) | apply H].
  reflexivity.
Defined.

(** ** Conditional actions *)




(** ** The vtable walk *)

Lemma NativePointer_add_small (W ptr rhs : Z) :
  (0 ≤ ptr + rhs < 2 ^ (8 * W))%Z → NativePointer_add W ptr rhs = (ptr + rhs)%Z.
Proof. intros H. unfold NativePointer_add. by apply Z.mod_small. Qed.

Lemma intercept_reads_no_memory {S} (respond : S → SetupCall → (Exn + Value) * S)
    (callbacks : Callbacks) (func : Func) (impl : Value) (s : S) :
  memoryReads (run respond (intercept callbacks func impl) s).1.2 = [].
Proof.
  unfold intercept.
  destruct (computeActions func) as [[[[] ia] oa]|]; simpl; [| |done].
  - by destruct (respond s _) as [[e|v] s1].
  - by destruct (respond s _) as [[e|v] s1].
Qed.

Lemma pointer_width_bound (W : Z) : (0 < W → 0 < 2 * W < 2 ^ (8 * W))%Z.
Proof.
  intros HW. split; [lia|].
  pose proof (Z.pow_gt_lin_r 2 (8 * W) ltac:(lia) ltac:(lia)). lia.
Qed.

(** C7: in vtable mode a padding marker of size [n] moves the offset by
    [n * W] and calls no collaborator; a function entry reads one pointer at
    the current offset, binds, and goes on one pointer width further.  For
    the entries [[padding(2), funcSpec]] the only memory read of [trace] is
    that of the pointer at [base + 2 * W], which for a positive pointer
    width is another address than [base + 0]. *)
Theorem vtable_padding_advances (W : Z) (callbacks : Callbacks)
    (vtable offset n : Z) (entry : Func) (rest : list Entry) :
  walkVtable W (intercept callbacks) vtable offset (padding n :: rest)
  = walkVtable W (intercept callbacks) vtable (offset + n * W) rest
  ∧ (∃ k,
       walkVtable W (intercept callbacks) vtable offset (Function entry :: rest)
       = Call (Runtime (Memory (ReadPointer
                 (VPtr (NativePointer_add W vtable offset))))) k
       ∧ (∀ impl, k (inr impl)
                  = let* _ := intercept callbacks entry impl in
                    walkVtable W (intercept callbacks) vtable (offset + W) rest)
       ∧ (∀ e, k (inl e)
               = let* _ := call (Runtime (OnError (FailedToReadVtable offset e))) in
                 Ret tt))
  ∧ (∃ k,
       trace W {| locator := InVtable vtable [padding 2; Function entry];
                  callbacks := callbacks |}
       = Call (Runtime (Memory (ReadPointer
                 (VPtr (NativePointer_add W vtable (2 * W)))))) k)
  ∧ (∀ S (respond : S → SetupCall → (Exn + Value) * S) (s : S),
       memoryReads
         (run respond
            (trace W {| locator := InVtable vtable [padding 2; Function entry];
                        callbacks := callbacks |}) s).1.2
       = [ReadPointer (VPtr (NativePointer_add W vtable (2 * W)))])
  ∧ ((0 ≤ vtable)%Z → (vtable + 2 * W < 2 ^ (8 * W))%Z → (0 < W)%Z →
     NativePointer_add W vtable (2 * W) = (vtable + 2 * W)%Z)
  ∧ ((0 < W)%Z →
     NativePointer_add W vtable (2 * W) ≠ NativePointer_add W vtable 0).
Proof.
  split_and!.
  - done.
  - eexists. split; [reflexivity|]. split; intros; reflexivity.
  - eexists. reflexivity.
  - intros S respond s. unfold trace, makeInterceptor. simpl.
    destruct (respond s _) as [[e|impl] s1]; simpl.
    + by destruct (respond s1 _) as [[e'|v] s2].
    + rewrite run_andThen.
      pose proof (intercept_reads_no_memory respond callbacks entry impl s1) as Hi.
      destruct (run respond (intercept callbacks entry impl) s1)
        as [[[e|[]] cs] s2]; simpl in *; by rewrite ?app_nil_r, Hi.
  - intros Hv Hlt HW. apply NativePointer_add_small. lia.
  - intros HW Heq. unfold NativePointer_add in Heq.
    destruct (pointer_width_bound W HW) as [H0 Hlt].
    assert (Hm : ((vtable + 2 * W - (vtable + 0)) mod 2 ^ (8 * W) = 0)%Z).
    { rewrite Zminus_mod, Heq, Z.sub_diag. apply Z.mod_0_l. lia. }
    replace (vtable + 2 * W - (vtable + 0))%Z with (2 * W)%Z in Hm by lia.
    rewrite Z.mod_small in Hm by lia. lia.
Qed.

Lemma vtable_padding_advances_witness :
  NativePointer_add 8 4096 (2 * 8) ≠ NativePointer_add 8 4096 0.
Proof.
  apply (vtable_padding_advances 8 noHooks 4096 0 2 roundTrip []). lia.
Defined.

(** ** The action compiler *)

Lemma action_index_computeAction (a : Arg) (i : nat) :
  action_index (computeAction a i) = i.
Proof. unfold computeAction. by destruct (type a), (condition a). Qed.

Lemma action_name_computeAction (a : Arg) (i : nat) :
  action_name (computeAction a i) = name a.
Proof. unfold computeAction. by destruct (type a), (condition a). Qed.

Lemma remaining_empty (satisfied : gset string) (deps : list string) :
  length (filter (λ dep, dep ∉ satisfied) deps) = 0
  ↔ Forall (λ dep, dep ∈ satisfied) deps.
Proof.
  induction deps as [|d deps IH]; simpl; [by split; [constructor|]|].
  rewrite filter_cons. destruct (decide (d ∉ satisfied)) as [Hd|Hd]; simpl.
  - split; [done|]. by intros [? ?]%Forall_cons.
  - rewrite IH, Forall_cons. apply dec_stable in Hd. tauto.
Qed.

Lemma visit_skip acc i a : name a ∈ acc.1 → visit acc i a = acc.
Proof. destruct acc as [sat acts]. unfold visit. simpl. intros. by rewrite decide_True. Qed.

Lemma visit_push acc i a :
  name a ∉ acc.1 → Forall (λ dep, dep ∈ acc.1) (requires a) →
  visit acc i a = (acc.1 ∪ {[name a]}, acc.2 ++ [computeAction a i]).
Proof.
  destruct acc as [sat acts]. unfold visit. simpl. intros Hn Hr.
  rewrite decide_False by done. rewrite decide_True; [done|].
  by apply remaining_empty.
Qed.

Lemma visit_wait acc i a :
  ¬ Forall (λ dep, dep ∈ acc.1) (requires a) → visit acc i a = acc.
Proof.
  destruct acc as [sat acts]. unfold visit. simpl. intros Hr.
  destruct (decide (name a ∈ sat)); [done|].
  rewrite decide_False; [done|]. by rewrite remaining_empty.
Qed.

(** The three ways a visit can go. *)
Lemma visit_cases acc i a :
  visit acc i a = acc
  ∨ ((name a ∉ acc.1) ∧ Forall (λ dep, dep ∈ acc.1) (requires a)
     ∧ visit acc i a = (acc.1 ∪ {[name a]}, acc.2 ++ [computeAction a i])).
Proof.
  destruct (decide (name a ∈ acc.1)); [left; by apply visit_skip|].
  destruct (decide (Forall (λ dep, dep ∈ acc.1) (requires a))).
  - right. split_and!; [done..|]. by apply visit_push.
  - left. by apply visit_wait.
Qed.

Section Passes.
Context (args : list Arg).

(** An invariant of single visits is an invariant of a scan and of a whole
    loop. *)
Lemma forEachIndexed_inv (P : gset string * list Action → Prop) rest :
  ∀ start acc,
  (∀ acc j a, rest !! j = Some a → P acc → P (visit acc (start + j) a)) →
  P acc → P (forEachIndexed start rest acc).
Proof.
  induction rest as [|a rest IH]; intros start acc Hstep Hacc; simpl; [done|].
  apply IH.
  - intros acc' j a' Hj Hacc'.
    replace (S start + j) with (start + S j) by lia. by apply Hstep.
  - specialize (Hstep acc 0 a eq_refl Hacc). by rewrite Nat.add_0_r in Hstep.
Qed.

Lemma scan_inv (P : gset string * list Action → Prop) acc :
  (∀ acc i a, args !! i = Some a → P acc → P (visit acc i a)) →
  P acc → P (scan args acc).
Proof. intros Hstep. by apply forEachIndexed_inv. Qed.

Lemma doWhile_inv (P : gset string * list Action → Prop) fuel :
  ∀ acc acc',
  (∀ acc i a, args !! i = Some a → P acc → P (visit acc i a)) →
  P acc → doWhile fuel args acc = Some acc' → P acc'.
Proof.
  induction fuel as [|fuel IH]; intros acc acc' Hstep Hacc; simpl; [done|].
  case_decide.
  - apply IH; [done|]. by apply scan_inv.
  - intros [= <-]. by apply scan_inv.
Qed.

Lemma visit_mono acc i a : acc.1 ⊆ (visit acc i a).1.
Proof.
  destruct (visit_cases acc i a) as [->|(_ & _ & ->)]; [done|]. simpl. set_solver.
Qed.

Lemma forEachIndexed_mono rest : ∀ start acc,
  acc.1 ⊆ (forEachIndexed start rest acc).1.
Proof.
  intros start acc.
  apply (forEachIndexed_inv (λ acc', acc.1 ⊆ acc'.1)); [|done].
  intros acc' j a _ H. etrans; [done|]. apply visit_mono.
Qed.

Lemma scan_mono acc : acc.1 ⊆ (scan args acc).1.
Proof. apply forEachIndexed_mono. Qed.

(** Only names of descriptors are ever added. *)
Lemma scan_adds_names acc :
  (scan args acc).1 ⊆ acc.1 ∪ list_to_set (names args).
Proof.
  apply (scan_inv (λ acc', acc'.1 ⊆ acc.1 ∪ list_to_set (names args)));
    [|set_solver].
  intros acc' i a Hi H.
  destruct (visit_cases acc' i a) as [->|(_ & _ & ->)]; [done|]. simpl.
  assert (name a ∈ names args).
  { unfold names. apply list_elem_of_fmap. exists a. split; [done|].
    by eapply list_elem_of_lookup_2. }
  set_solver.
Qed.

(** *** Quiescence: what holds when a scan adds nothing *)

Lemma forEachIndexed_fixed rest : ∀ start acc,
  (forEachIndexed start rest acc).1 = acc.1 →
  ∀ a, a ∈ rest → name a ∉ acc.1 →
       ¬ Forall (λ dep, dep ∈ acc.1) (requires a).
Proof.
  induction rest as [|a0 rest IH]; intros start acc Hfix a Ha Hn Hall.
  { by apply elem_of_nil in Ha. }
  simpl in Hfix.
  assert (Hv : (visit acc start a0).1 = acc.1).
  { apply set_eq. intros x. split.
    - intros Hx. rewrite <- Hfix. by apply forEachIndexed_mono.
    - apply visit_mono. }
  apply elem_of_cons in Ha as [->|Ha].
  - rewrite (visit_push acc start a0 Hn Hall) in Hv. simpl in Hv.
    apply Hn. rewrite <- Hv. set_solver.
  - refine (IH (S start) (visit acc start a0) _ a Ha _ _); by rewrite Hv.
Qed.

Lemma scan_fixed_quiescent acc :
  size (scan args acc).1 = size acc.1 → quiescent args (scan args acc).1.
Proof.
  intros Hsize.
  assert (Heq : (scan args acc).1 = acc.1).
  { symmetry. apply set_subseteq_size_eq; [apply scan_mono|lia]. }
  intros a Ha Hn. rewrite Heq in Hn |- *.
  apply Exists_exists, not_Forall_Exists; [apply _|].
  by apply (forEachIndexed_fixed args 0 acc).
Qed.

Lemma doWhile_quiescent fuel : ∀ acc acc',
  doWhile fuel args acc = Some acc' → quiescent args acc'.1.
Proof.
  induction fuel as [|fuel IH]; intros acc acc'; simpl; [done|].
  case_decide as Hsize.
  - apply IH.
  - intros [= <-]. apply scan_fixed_quiescent.
    destruct (decide (size (scan args acc).1 = size acc.1)); [done|]. done.
Qed.

Lemma doWhile_mono fuel : ∀ acc acc',
  doWhile fuel args acc = Some acc' → acc.1 ⊆ acc'.1.
Proof.
  intros acc acc'.
  apply (doWhile_inv (λ acc', acc.1 ⊆ acc'.1)); [|done].
  intros acc0 i a _ H. etrans; [done|]. apply visit_mono.
Qed.

(** *** Termination *)

Lemma filter_length_strict {A} (P Q : A → Prop) `{∀ x, Decision (P x)}
    `{∀ x, Decision (Q x)} (l : list A) (x : A) :
  (∀ y, Q y → P y) → x ∈ l → P x → ¬ Q x →
  length (filter Q l) < length (filter P l).
Proof.
  intros HQP. induction l as [|y l IH]; intros Hx HP HQ.
  { by apply elem_of_nil in Hx. }
  assert (Hle : ∀ l', length (filter Q l') ≤ length (filter P l')).
  { induction l' as [|z l' IH']; [done|]. rewrite !filter_cons.
    destruct (decide (Q z)), (decide (P z)); simpl; try lia. naive_solver. }
  rewrite !filter_cons. apply elem_of_cons in Hx as [<-|Hx].
  - rewrite decide_False, decide_True by done. simpl. specialize (Hle l). lia.
  - specialize (IH Hx HP HQ).
    destruct (decide (Q y)), (decide (P y)); simpl; try lia. naive_solver.
Qed.

Lemma scan_progress acc :
  size (scan args acc).1 ≠ size acc.1 →
  pending args (scan args acc).1 < pending args acc.1.
Proof.
  intros Hsize.
  assert (Hnew : ∃ x, x ∈ (scan args acc).1 ∖ acc.1).
  { apply set_choose_L. intros Hempty. apply Hsize. f_equal.
    apply set_eq. intros x. split; [|apply scan_mono].
    intros Hx. destruct (decide (x ∈ acc.1)) as [|Hn]; [done|].
    assert (x ∈ (scan args acc).1 ∖ acc.1) as Hd by by apply elem_of_difference.
    rewrite Hempty in Hd. by apply elem_of_empty in Hd. }
  destruct Hnew as [x [Hx Hn]%elem_of_difference].
  assert (Hname : x ∈ names args).
  { apply scan_adds_names in Hx. apply elem_of_union in Hx as [?|Hx]; [done|].
    by apply elem_of_list_to_set in Hx. }
  apply list_elem_of_fmap in Hname as (a & -> & Ha).
  apply (filter_length_strict _ _ args a); try done.
  - intros y Hy Hy'. apply Hy. by apply scan_mono.
  - by intros H.
Qed.

Lemma pending_le satisfied : pending args satisfied ≤ length args.
Proof. apply length_filter. Qed.

Lemma doWhile_terminates fuel : ∀ acc,
  pending args acc.1 < fuel → is_Some (doWhile fuel args acc).
Proof.
  induction fuel as [|fuel IH]; intros acc Hfuel; [lia|]. simpl.
  case_decide as Hsize; [|by eexists].
  apply IH. apply scan_progress in Hsize. lia.
Qed.

(** More fuel does not change the result. *)
Lemma doWhile_fuel fuel : ∀ fuel' acc acc',
  doWhile fuel args acc = Some acc' → fuel ≤ fuel' →
  doWhile fuel' args acc = Some acc'.
Proof.
  induction fuel as [|fuel IH]; intros fuel' acc acc'; simpl; [done|].
  intros Hrun Hle. destruct fuel' as [|fuel']; [lia|]. simpl.
  case_decide; [|done]. apply (IH fuel'); [done|lia].
Qed.

End Passes.

Section Schedule.
Context (args : list Arg).

Lemma elem_of_names (a : Arg) : a ∈ args → name a ∈ names args.
Proof. intros. unfold names. apply list_elem_of_fmap. eauto. Qed.

Lemma names_elem_of (s : string) :
  s ∈ names args → ∃ a, a ∈ args ∧ name a = s.
Proof. intros (a & -> & Ha)%list_elem_of_fmap. eauto. Qed.

(** With unique names, a name identifies its descriptor and its position. *)
Lemma uniqueNames_lookup (i j : nat) (a b : Arg) :
  uniqueNames args → args !! i = Some a → args !! j = Some b →
  name a = name b → i = j ∧ a = b.
Proof.
  intros Hu Hi Hj Hn.
  assert (i = j) as ->.
  { apply (NoDup_lookup (names args) i j (name a)); [done|..]; unfold names.
    - by rewrite list_lookup_fmap, Hi.
    - by rewrite list_lookup_fmap, Hj, Hn. }
  split; [done|congruence].
Qed.

Lemma uniqueNames_elem (a b : Arg) :
  uniqueNames args → a ∈ args → b ∈ args → name a = name b → a = b.
Proof.
  intros Hu [i Hi]%list_elem_of_lookup [j Hj]%list_elem_of_lookup Hn.
  by destruct (uniqueNames_lookup i j a b).
Qed.

(** *** The action lists mirror the satisfied set *)

Lemma scheduled_init (initial : gset string) : scheduled args initial (initial, []).
Proof.
  unfold scheduled. simpl. split_and!; [set_solver|constructor| |constructor].
  intros n Hn. by apply elem_of_nil in Hn.
Qed.

Lemma scheduled_visit (initial : gset string) acc i a :
  args !! i = Some a → scheduled args initial acc →
  scheduled args initial (visit acc i a).
Proof.
  intros Hi (Hsat & Hnd & Hfresh & Htie).
  destruct (visit_cases acc i a) as [->|(Hn & _ & ->)]; [done|].
  unfold scheduled. simpl.
  rewrite fmap_app. simpl. rewrite action_name_computeAction.
  assert (Hold : ∀ n, n ∈ action_name <$> acc.2 → n ∈ acc.1).
  { intros n Hin. rewrite Hsat. apply elem_of_union_r.
    by apply elem_of_list_to_set. }
  split_and!.
  - rewrite Hsat, list_to_set_app_L. simpl. set_solver.
  - apply NoDup_app. split_and!; [done| |apply NoDup_singleton].
    intros n Hin ->%list_elem_of_singleton. by apply Hn, Hold.
  - intros n [Hin| ->%list_elem_of_singleton]%elem_of_app; [by apply Hfresh|].
    intros Hin. apply Hn. rewrite Hsat. by apply elem_of_union_l.
  - apply Forall_app. split; [done|]. constructor; [|constructor].
    exists a. by rewrite action_index_computeAction.
Qed.

Lemma doWhile_scheduled fuel (initial : gset string) acc :
  doWhile fuel args (initial, []) = Some acc → scheduled args initial acc.
Proof.
  apply (doWhile_inv args (scheduled args initial)).
  - intros acc' i a. apply scheduled_visit.
  - apply scheduled_init.
Qed.

(** *** Cycles are never scheduled *)

Lemma dependsOn_requires (a : Arg) (t : string) :
  uniqueNames args → a ∈ args → dependsOn args (name a) t → t ∈ requires a.
Proof.
  intros Hu Ha (b & Hb & Hn & Ht). by rewrite (uniqueNames_elem a b).
Qed.

Lemma cycleFree_visit acc i a :
  uniqueNames args → args !! i = Some a →
  cycleFree args acc.1 → cycleFree args (visit acc i a).1.
Proof.
  intros Hu Hi Hfree.
  destruct (visit_cases acc i a) as [->|(Hn & Hall & ->)]; [done|]. simpl.
  assert (Ha : a ∈ args) by by eapply list_elem_of_lookup_2.
  intros s [Hs| ->%elem_of_singleton]%elem_of_union; [by apply Hfree|].
  rewrite Forall_forall in Hall.
  intros Hcycle. inversion Hcycle as [x y Hstep|x t z Hstep Hrest]; subst.
  - apply Hn, Hall. by apply dependsOn_requires.
  - apply (Hfree t).
    + apply Hall. by apply dependsOn_requires.
    + eapply tc_r; done.
Qed.

Lemma doWhile_cycleFree fuel acc acc' :
  uniqueNames args → cycleFree args acc.1 →
  doWhile fuel args acc = Some acc' → cycleFree args acc'.1.
Proof.
  intros Hu. apply (doWhile_inv args (λ acc, cycleFree args acc.1)).
  intros acc0 i a. by apply cycleFree_visit.
Qed.

Lemma cycle_starts_at_descriptor (s : string) :
  tc (dependsOn args) s s → s ∈ names args.
Proof.
  intros H. assert (∃ t, dependsOn args s t) as (t & a & Ha & <- & _).
  { inversion H; eauto. }
  by apply elem_of_names.
Qed.

(** *** Without cycles, the dependency graph is well founded *)

Lemma dependsOn_finite (s : string) :
  pred_finite (tc (dependsOn args) s).
Proof.
  exists (mjoin (requires <$> args)). intros t Ht.
  assert (∃ u, dependsOn args u t) as (u & a & Ha & _ & Hreq).
  { induction Ht; eauto. }
  apply list_elem_of_join. exists (requires a). split; [done|].
  apply list_elem_of_fmap. eauto.
Qed.

Lemma acyclic_sn (s : string) : ¬ hasCycle args → sn (dependsOn args) s.
Proof.
  intros Hacyclic. apply tc_finite_sn; [|apply dependsOn_finite].
  intros t Ht. apply Hacyclic. by exists t.
Qed.

Lemma dependsOn_edges (s t : string) :
  dependsOn args s t ↔ (s, t) ∈ edges args.
Proof.
  unfold dependsOn, edges. rewrite list_elem_of_bind. split.
  - intros (a & Ha & <- & Ht). exists a. split; [|done].
    apply list_elem_of_fmap. eauto.
  - intros (a & Hin & Ha).
    apply list_elem_of_fmap in Hin as (t' & [= -> ->] & Ht). eauto.
Qed.

(** A rank that falls along every edge rules cycles out. *)
Lemma ranked_acyclic (rank : string → nat) :
  Forall (λ e, rank e.2 < rank e.1) (edges args) → ¬ hasCycle args.
Proof.
  intros Hrank [s Hs]. rewrite Forall_forall in Hrank.
  assert (Hfall : ∀ x y, tc (dependsOn args) x y → rank y < rank x).
  { induction 1 as [x y Hxy|x y z Hxy _ IH];
      apply dependsOn_edges, Hrank in Hxy; simpl in Hxy; lia. }
  specialize (Hfall s s Hs). lia.
Qed.

Lemma resolvable_edges :
  Forall (λ e, e.2 = "$out" ∨ e.2 ∈ names args) (edges args) → resolvable args.
Proof.
  intros H a dep Ha Hdep. rewrite Forall_forall in H.
  apply (H (name a, dep)). apply dependsOn_edges. by exists a.
Qed.

(** After the exit loop every descriptor is scheduled. *)
Lemma quiescent_complete (satisfied : gset string) :
  ¬ hasCycle args → resolvable args → quiescent args satisfied →
  "$out" ∈ satisfied → ∀ s, s ∈ names args → s ∈ satisfied.
Proof.
  intros Hacyclic Hres Hq Hout s.
  induction (acyclic_sn s Hacyclic) as [s _ IH]. intros Hs.
  destruct (decide (s ∈ satisfied)) as [|Hn]; [done|]. exfalso.
  apply names_elem_of in Hs as (a & Ha & <-).
  destruct (Hq a Ha Hn) as (dep & Hdep & Hmissing).
  apply Hmissing.
  destruct (Hres a dep Ha Hdep) as [->|Hname]; [done|].
  apply IH; [|done]. by exists a.
Qed.

(** After the entry loop a descriptor that carries the sentinel's name is
    scheduled. *)
Lemma quiescent_sentinel (satisfied : gset string) :
  ¬ hasCycle args → resolvable args → quiescent args satisfied →
  "$out" ∈ names args → "$out" ∈ satisfied.
Proof.
  intros Hacyclic Hres Hq Hout.
  assert (Hreach : ∀ s, s ∈ names args → s ∉ satisfied →
                        tc (dependsOn args) s "$out").
  { intros s. induction (acyclic_sn s Hacyclic) as [s _ IH]. intros Hs Hn.
    apply names_elem_of in Hs as (a & Ha & <-).
    destruct (Hq a Ha Hn) as (dep & Hdep & Hmissing).
    assert (Hstep : dependsOn args (name a) dep) by by exists a.
    destruct (Hres a dep Ha Hdep) as [->|Hname]; [by apply tc_once|].
    eapply tc_l; [done|]. by apply IH. }
  destruct (decide ("$out" ∈ satisfied)) as [|Hn]; [done|].
  destruct Hacyclic. exists "$out". by apply Hreach.
Qed.

End Schedule.

(** *** [computeActions] as a whole *)

Lemma needs_no_more_fuel (func : Func) (satisfied : gset string) :
  pending (allArgs func) satisfied < S (length (allArgs func)).
Proof. pose proof (pending_le (allArgs func) satisfied). lia. Qed.

Lemma all_satisfied (args : list Arg) (satisfied : gset string) :
  negb (existsb (λ arg, negb (bool_decide (name arg ∈ satisfied))) args) = true
  ↔ ∀ a, a ∈ args → name a ∈ satisfied.
Proof.
  rewrite negb_true_iff, <- not_true_iff_false, existsb_exists.
  split.
  - intros H a Ha. destruct (decide (name a ∈ satisfied)) as [|Hn]; [done|].
    destruct H. exists a. split; [by apply list_elem_of_In|].
    by rewrite bool_decide_eq_false_2.
  - intros H (a & Ha%list_elem_of_In & Hb).
    rewrite bool_decide_eq_true_2 in Hb by by apply H. done.
Qed.

(** The two loops end, and the result is read off their final states. *)
Lemma computeActions_unfold (func : Func) :
  ∃ satisfied1 inputActions satisfied2 outputActions,
    doWhile (S (length (allArgs func))) (allArgs func) (∅, [])
      = Some (satisfied1, inputActions)
    ∧ doWhile (S (length (allArgs func))) (allArgs func)
        (satisfied1 ∪ {["$out"]}, []) = Some (satisfied2, outputActions)
    ∧ computeActions func
      = Some (negb (existsb (λ arg, negb (bool_decide (name arg ∈ satisfied2)))
                      (allArgs func)),
              inputActions, outputActions).
Proof.
  destruct (doWhile_terminates (allArgs func) (S (length (allArgs func))) (∅, []))
    as [[sat1 ia] H1]; [apply needs_no_more_fuel|].
  destruct (doWhile_terminates (allArgs func) (S (length (allArgs func)))
              (sat1 ∪ {["$out"]}, [])) as [[sat2 oa] H2];
    [apply needs_no_more_fuel|].
  exists sat1, ia, sat2, oa. split_and!; [done..|].
  unfold computeActions, computeActionsWithin.
  rewrite H1. cbn [mbind option_bind]. by rewrite H2.
Qed.

(** [computeActions] returns, and any larger bound on the number of scans
    gives the same result. *)
Lemma computeActions_terminates (func : Func) :
  is_Some (computeActions func)
  ∧ ∀ fuel, S (length (allArgs func)) ≤ fuel →
            computeActionsWithin fuel func = computeActions func.
Proof.
  destruct (computeActions_unfold func) as (sat1 & ia & sat2 & oa & H1 & H2 & H).
  split; [by rewrite H|]. intros fuel Hfuel. rewrite H.
  unfold computeActionsWithin.
  rewrite (doWhile_fuel _ _ fuel _ _ H1 Hfuel). cbn [mbind option_bind].
  by rewrite (doWhile_fuel _ _ fuel _ _ H2 Hfuel).
Qed.

Lemma length_allArgs (func : Func) :
  length (allArgs func)
  = length (args func) + match ret func with Some _ => 1 | None => 0 end.
Proof. unfold allArgs. rewrite length_app. by destruct (ret func). Qed.

(** A descriptor that requires nothing is scheduled at entry. *)
Lemma no_requirements_entry (func : Func) (index : nat) (a : Arg) :
  uniqueNames (allArgs func) → allArgs func !! index = Some a →
  requires a = [] →
  ∃ ok inputActions outputActions,
    computeActions func = Some (ok, inputActions, outputActions)
    ∧ (index, name a) ∈ layout inputActions
    ∧ name a ∉ action_name <$> outputActions.
Proof.
  intros Hu Hi Hreq.
  destruct (computeActions_unfold func) as (sat1 & ia & sat2 & oa & H1 & H2 & ->).
  eexists _, ia, oa. split; [done|].
  assert (Ha : a ∈ allArgs func) by by eapply list_elem_of_lookup_2.
  assert (Hsat : name a ∈ sat1).
  { destruct (decide (name a ∈ sat1)) as [|Hn]; [done|].
    destruct (doWhile_quiescent _ _ _ _ H1 a Ha Hn) as (dep & Hdep & _).
    rewrite Hreq in Hdep. by apply elem_of_nil in Hdep. }
  destruct (doWhile_scheduled _ _ _ _ H1) as (Hs1 & _ & _ & Htie).
  destruct (doWhile_scheduled _ _ _ _ H2) as (_ & _ & Hfresh & _).
  simpl in *. split.
  - rewrite Hs1 in Hsat. apply elem_of_union in Hsat as [Hsat|Hsat];
      [by apply elem_of_empty in Hsat|].
    apply elem_of_list_to_set, list_elem_of_fmap in Hsat as (act & Hname & Hact).
    rewrite Forall_forall in Htie. destruct (Htie act Hact) as (b & Hj & Hb).
    assert (Hnb : name b = name a).
    { by rewrite Hname, Hb, action_name_computeAction. }
    destruct (uniqueNames_lookup _ _ _ _ _ Hu Hj Hi Hnb) as [Hidx _].
    unfold layout. apply list_elem_of_fmap. exists act. by rewrite Hidx, Hname.
  - intros Hin. apply (Hfresh _ Hin). by apply elem_of_union_l.
Qed.

(** ** Claims on the descriptors and the compiler *)

Lemma dependencies_eq (direction : Direction) (type : ArgType)
    (condition : option Condition) :
  dependencies direction type condition
  = match direction with OUT => ["$out"] | _ => [] end
    ++ option_list (bindingSource type)
    ++ option_list (conditionSource condition).
Proof. by destruct direction, type, condition. Qed.

(** Against C1 as stated: an in-out descriptor without binding or condition
    has a direction other than [IN], yet requires nothing, and is scheduled
    as an entry action. *)
Lemma argInOut_has_no_out_dependency :
  direction (argInOut "x" (Plain INT) None) ≠ IN
  ∧ ("$out" ∉ requires (argInOut "x" (Plain INT) None))
  ∧ schedule inOutOnly = Some (true, [(0, "x")], []).
Proof.
  split_and!; [done| |by vm_compute].
  simpl. by intros ?%elem_of_nil.
Qed.

(** C1, amended: the descriptors built by [argOut] and [retval] require
    ["$out"]; those built by [argIn] and [argInOut] require it only when
    their binding or their condition names ["$out"] as its source.  An
    in-out descriptor without binding or condition requires nothing, and in
    a schema with unique names it is scheduled as an entry action and not
    as an exit action. *)
Theorem out_dependency_by_direction (name : string) (type : ArgType)
    (condition : option Condition) :
  "$out" ∈ requires (argOut name type condition)
  ∧ "$out" ∈ requires (retval type condition)
  ∧ ("$out" ∈ requires (argIn name type condition)
     ↔ bindingSource type = Some "$out" ∨ conditionSource condition = Some "$out")
  ∧ ("$out" ∈ requires (argInOut name type condition)
     ↔ bindingSource type = Some "$out" ∨ conditionSource condition = Some "$out")
  ∧ (∀ t, requires (argInOut name (Plain t) None) = [])
  ∧ (∀ t func index,
       uniqueNames (allArgs func) →
       allArgs func !! index = Some (argInOut name (Plain t) None) →
       ∃ ok inputActions outputActions,
         computeActions func = Some (ok, inputActions, outputActions)
         ∧ (index, name) ∈ layout inputActions
         ∧ name ∉ action_name <$> outputActions).
Proof.
  assert (Hin : ∀ d, d ≠ OUT →
    "$out" ∈ dependencies d type condition
    ↔ bindingSource type = Some "$out" ∨ conditionSource condition = Some "$out").
  { intros d Hd. rewrite dependencies_eq.
    destruct d; [|done|]; destruct type as [t|t b], condition as [c|]; simpl;
      rewrite ?elem_of_cons, ?elem_of_nil; split;
      try (intros [[=]|[=]]; fail); try (intros []; fail);
      intuition congruence. }
  split_and!.
  - simpl. rewrite dependencies_eq. apply elem_of_app. left. by left.
  - simpl. rewrite dependencies_eq. apply elem_of_app. left. by left.
  - by apply Hin.
  - by apply Hin.
  - done.
  - intros t func index Hu Hi.
    by apply (no_requirements_entry func index _ Hu Hi).
Qed.

Lemma out_dependency_by_direction_witness :
  ∃ ok inputActions outputActions,
    computeActions inOutOnly = Some (ok, inputActions, outputActions)
    ∧ (0, "x") ∈ layout inputActions
    ∧ "x" ∉ action_name <$> outputActions.
Proof.
  apply (out_dependency_by_direction "x" (Plain INT) None) with (t := INT).
  - vm_compute. apply NoDup_singleton.
  - reflexivity.
Defined.

(** Against C3 as stated: the names of [dangling] are unique and its
    dependency graph has no cycle, but its one descriptor waits for a name
    that no descriptor carries, and [computeActions] returns [false]. *)
Lemma dangling_not_compiled :
  uniqueNames (allArgs dangling)
  ∧ ¬ hasCycle (allArgs dangling)
  ∧ schedule dangling = Some (false, [], []).
Proof.
  split_and!; [vm_compute; apply NoDup_singleton| |by vm_compute].
  apply ranked_acyclic with (rank := λ s, if String.eqb s "x" then 1 else 0).
  vm_compute. repeat constructor.
Qed.

(** C3, amended: for a schema with unique names, no dependency cycle, and
    whose every required name is ["$out"] or the name of one of its
    descriptors, [computeActions] returns [true]; the entry and exit lists
    together are as long as the schema has descriptors, the return value's
    included; the names of the actions are the names of the descriptors up
    to order, and each action is the one compiled from the descriptor at
    its position. *)
Theorem computeActions_schedules_all (func : Func)
    (Hunique : uniqueNames (allArgs func))
    (Hacyclic : ¬ hasCycle (allArgs func))
    (Hresolvable : resolvable (allArgs func)) :
  ∃ inputActions outputActions,
    computeActions func = Some (true, inputActions, outputActions)
    ∧ length inputActions + length outputActions
      = length (args func) + match ret func with Some _ => 1 | None => 0 end
    ∧ action_name <$> (inputActions ++ outputActions) ≡ₚ names (allArgs func)
    ∧ Forall (λ act, ∃ a, allArgs func !! action_index act = Some a
                          ∧ act = computeAction a (action_index act))
        (inputActions ++ outputActions).
Proof.
  destruct (computeActions_unfold func) as (sat1 & ia & sat2 & oa & H1 & H2 & ->).
  pose proof (doWhile_quiescent _ _ _ _ H1) as Hq1.
  pose proof (doWhile_quiescent _ _ _ _ H2) as Hq2.
  pose proof (doWhile_mono _ _ _ _ H2) as Hmono.
  destruct (doWhile_scheduled _ _ _ _ H1) as (Hs1 & Hnd1 & _ & Htie1).
  destruct (doWhile_scheduled _ _ _ _ H2) as (Hs2 & Hnd2 & Hfresh & Htie2).
  simpl in Hq1, Hq2, Hmono, Hs1, Hnd1, Htie1, Hs2, Hnd2, Hfresh, Htie2.
  assert (Hall : ∀ s, s ∈ names (allArgs func) → s ∈ sat2).
  { apply quiescent_complete; try done. apply Hmono. set_solver. }
  assert (Hperm : action_name <$> (ia ++ oa) ≡ₚ names (allArgs func)).
  { apply NoDup_Permutation; [|done|].
    - rewrite fmap_app. apply NoDup_app. split_and!; [done| |done].
      intros n Hn Hn'. apply (Hfresh n Hn'). apply elem_of_union_l.
      rewrite Hs1. by apply elem_of_union_r, elem_of_list_to_set.
    - intros n. split.
      + intros (act & -> & Hact)%list_elem_of_fmap.
        assert (∃ a, allArgs func !! action_index act = Some a
                     ∧ act = computeAction a (action_index act)) as (a & Ha & ->).
        { apply elem_of_app in Hact as [Hact|Hact];
            [rewrite Forall_forall in Htie1|rewrite Forall_forall in Htie2]; eauto. }
        rewrite action_name_computeAction. apply elem_of_names.
        by eapply list_elem_of_lookup_2.
      + intros Hn. rewrite fmap_app, elem_of_app.
        pose proof (Hall n Hn) as Hsat. rewrite Hs2 in Hsat.
        apply elem_of_union in Hsat as [Hsat|Hsat];
          [|right; by apply elem_of_list_to_set in Hsat].
        left. assert (Hin1 : n ∈ sat1).
        { apply elem_of_union in Hsat as [|Heq]; [done|].
          apply elem_of_singleton in Heq as ->.
          by apply (quiescent_sentinel (allArgs func)). }
        rewrite Hs1 in Hin1. apply elem_of_union in Hin1 as [Hin1|Hin1];
          [by apply elem_of_empty in Hin1|by apply elem_of_list_to_set in Hin1]. }
  exists ia, oa. split_and!.
  - assert (negb (existsb (λ arg, negb (bool_decide (name arg ∈ sat2)))
                    (allArgs func)) = true) as ->; [|done].
    apply all_satisfied. intros a Ha. by apply Hall, elem_of_names.
  - rewrite <- length_allArgs, <- length_app.
    rewrite <- (length_fmap action_name), Hperm. unfold names. apply length_fmap.
  - done.
  - by apply Forall_app.
Qed.

Lemma computeActions_schedules_all_witness :
  ∃ inputActions outputActions,
    computeActions roundTrip = Some (true, inputActions, outputActions)
    ∧ length inputActions + length outputActions = 2 + 1
    ∧ action_name <$> (inputActions ++ outputActions) ≡ₚ names (allArgs roundTrip)
    ∧ Forall (λ act, ∃ a, allArgs roundTrip !! action_index act = Some a
                          ∧ act = computeAction a (action_index act))
        (inputActions ++ outputActions).
Proof.
  apply (computeActions_schedules_all roundTrip).
  - vm_compute. repeat constructor; set_solver.
  - apply ranked_acyclic
      with (rank := λ s, if String.eqb s "a" || String.eqb s "$out" then 0 else 1).
    vm_compute. repeat constructor.
  - apply resolvable_edges. vm_compute. repeat constructor; set_solver.
Defined.

(** A cycle keeps [computeActions] from succeeding, provided names are
    unique and none is the sentinel. *)
Lemma cycle_fails (func : Func) :
  uniqueNames (allArgs func) → "$out" ∉ names (allArgs func) →
  hasCycle (allArgs func) →
  ∃ inputActions outputActions,
    computeActions func = Some (false, inputActions, outputActions).
Proof.
  intros Hu Hsentinel [s Hs].
  destruct (computeActions_unfold func) as (sat1 & ia & sat2 & oa & H1 & H2 & ->).
  exists ia, oa.
  assert (negb (existsb (λ arg, negb (bool_decide (name arg ∈ sat2)))
                  (allArgs func)) = false) as ->; [|done].
  apply not_true_iff_false. intros Hall. rewrite all_satisfied in Hall.
  assert (Hfree1 : cycleFree (allArgs func) sat1).
  { apply (doWhile_cycleFree _ _ _ _ Hu) in H1; [done|].
    intros x Hx. by apply elem_of_empty in Hx. }
  assert (Hfree2 : cycleFree (allArgs func) sat2).
  { apply (doWhile_cycleFree _ _ _ _ Hu) in H2; [done|]. simpl.
    intros x [Hx|Hx]%elem_of_union; [by apply Hfree1|].
    apply elem_of_singleton in Hx as ->.
    intros Hc. by apply Hsentinel, cycle_starts_at_descriptor. }
  apply (Hfree2 s); [|done].
  apply cycle_starts_at_descriptor, names_elem_of in Hs as (a & Ha & <-).
  by apply Hall.
Qed.

(** Against C4 as stated: the descriptors of [sentinelNamed] and of
    [shadowed] form a dependency cycle, yet [computeActions] returns [true]
    and the one call [intercept] makes is [Interceptor.attach].  In the
    first schema a descriptor is named ["$out"], in the second a name
    occurs twice. *)
Lemma sentinelNamed_is_attached :
  uniqueNames (allArgs sentinelNamed)
  ∧ hasCycle (allArgs sentinelNamed)
  ∧ schedule sentinelNamed = Some (true, [], [(1, "b")])
  ∧ isAttach <$> (run quietHost (intercept noHooks sentinelNamed (VPtr 4096)) tt).1.2
    = [true]
  ∧ ("$out" ∉ names (allArgs shadowed))
  ∧ hasCycle (allArgs shadowed)
  ∧ schedule shadowed = Some (true, [(2, "x"); (1, "y")], [])
  ∧ isAttach <$> (run quietHost (intercept noHooks shadowed (VPtr 4096)) tt).1.2
    = [true].
Proof.
  split_and!.
  - vm_compute. repeat constructor; set_solver.
  - exists "b". apply tc_l with "$out"; [|apply tc_once];
      apply dependsOn_edges; vm_compute; set_solver.
  - by vm_compute.
  - by vm_compute.
  - vm_compute. set_solver.
  - exists "x". apply tc_l with "y"; [|apply tc_once];
      apply dependsOn_edges; vm_compute; set_solver.
  - by vm_compute.
  - by vm_compute.
Qed.

(** C4, amended: for a schema with unique names, none of them ["$out"],
    whose descriptors form a dependency cycle, [intercept] makes exactly
    one call, the report of a circular-dependency error to [onError], and
    so never calls [Interceptor.attach]; when that report returns, [trace]
    goes on with the remaining functions, in module mode and in vtable
    mode. *)
Theorem cycle_reported_once (W : Z) (callbacks : Callbacks) (func : Func)
    (Hunique : uniqueNames (allArgs func))
    (Hsentinel : "$out" ∉ names (allArgs func))
    (Hcycle : hasCycle (allArgs func)) :
  let report := Runtime (OnError (CircularDependencies (func_name func))) in
  (∀ impl, intercept callbacks func impl = let* _ := call report in Ret tt)
  ∧ (∀ impl S (respond : S → SetupCall → (Exn + Value) * S) (s : S),
       (run respond (intercept callbacks func impl) s).1.2 = [report])
  ∧ (∀ S (respond : S → SetupCall → (Exn + Value) * S) (s s1 s2 : S)
       module rest impl u,
       respond s (FindExportByName module (func_name func)) = (inr impl, s1) →
       impl ≠ VNull →
       respond s1 report = (inr u, s2) →
       run respond
         (trace W {| locator := InModule module (func :: rest);
                     callbacks := callbacks |}) s
       = let '(o, calls, s3) :=
           run respond
             (trace W {| locator := InModule module rest;
                         callbacks := callbacks |}) s2 in
         (o, FindExportByName module (func_name func) :: report :: calls, s3))
  ∧ (∀ S (respond : S → SetupCall → (Exn + Value) * S) (s s1 s2 : S)
       vtable offset rest impl u,
       respond s (Runtime (Memory (ReadPointer
                    (VPtr (NativePointer_add W vtable offset)))))
         = (inr impl, s1) →
       respond s1 report = (inr u, s2) →
       run respond (walkVtable W (intercept callbacks) vtable offset (Function func :: rest)) s
       = let '(o, calls, s3) :=
           run respond (walkVtable W (intercept callbacks) vtable (offset + W) rest) s2 in
         (o, Runtime (Memory (ReadPointer
                        (VPtr (NativePointer_add W vtable offset))))
             :: report :: calls, s3)).
Proof.
  intros report.
  destruct (cycle_fails func Hunique Hsentinel Hcycle) as (ia & oa & Hfail).
  assert (Hi : ∀ impl, intercept callbacks func impl
                       = let* _ := call report in Ret tt).
  { intros impl. unfold intercept. by rewrite Hfail. }
  assert (Hrun : ∀ impl S (respond : S → SetupCall → (Exn + Value) * S) s,
            run respond (intercept callbacks func impl) s
            = (match (respond s report).1 with inl e => inl e | inr _ => inr tt end,
               [report], (respond s report).2)).
  { intros impl S respond s. rewrite Hi. simpl.
    by destruct (respond s report) as [[e|v] s1]. }
  split_and!.
  - done.
  - intros impl S respond s. by rewrite Hrun.
  - intros S respond s s1 s2 module rest impl u Hfind Hnull Hreport.
    change (trace W {| locator := InModule module (func :: rest);
                       callbacks := callbacks |})
      with (let* _ := resolveByName (intercept callbacks) module func in
            forEach (resolveByName (intercept callbacks) module) rest).
    change (trace W {| locator := InModule module rest; callbacks := callbacks |})
      with (forEach (resolveByName (intercept callbacks) module) rest).
    rewrite run_andThen.
    assert (Hres : run respond (resolveByName (intercept callbacks) module func) s
                   = (inr tt, [FindExportByName module (func_name func); report], s2)).
    { unfold resolveByName. rewrite run_andThen, run_call, Hfind. cbn [fst snd].
      destruct impl; try done; by rewrite Hrun, Hreport. }
    rewrite Hres.
    by destruct (run respond (forEach _ rest) s2) as [[o calls] s3].
  - intros S respond s s1 s2 vtable offset rest impl u Hread Hreport.
    simpl. rewrite Hread. simpl. rewrite run_andThen, Hrun, Hreport. simpl.
    by destruct (run respond (walkVtable W (intercept callbacks) vtable (offset + W) rest) s2)
      as [[o calls] s3].
Qed.

Lemma mutual_has_cycle :
  uniqueNames (allArgs mutual)
  ∧ ("$out" ∉ names (allArgs mutual))
  ∧ hasCycle (allArgs mutual).
Proof.
  split_and!.
  - vm_compute. repeat constructor; set_solver.
  - vm_compute. set_solver.
  - exists "a". apply tc_l with "b"; [|apply tc_once];
      apply dependsOn_edges; vm_compute; set_solver.
Qed.

Lemma cycle_reported_once_witness :
  (run quietHost (intercept noHooks mutual (VPtr 4096)) tt).1.2
  = [Runtime (OnError (CircularDependencies "f"))].
Proof.
  apply (cycle_reported_once 8 noHooks mutual);
    apply mutual_has_cycle.
Defined.

(** ** The hooks *)

Section HookFacts.
Context {S : Type} (respond : S → HookCall → (Exn + Value) * S).

(** The interception layer's catch turns the outcome of a hook into a
    value. *)
Lemma run_caught {A} (p : Prog HookCall A) (s : S) :
  run respond (tryCatch (let* u := p in Ret (inr u)) (λ e, Ret (inl e))) s
  = let '(o, calls, s1) := run respond p s in
    (inr (match o with inl e => inl e | inr u => inr u end : Exn + A), calls, s1).
Proof.
  revert s. induction p as [a|e|c k IH]; intros s; simpl; [done..|].
  destruct (respond s c) as [r s1]. rewrite IH.
  by destruct (run respond (k r) s1) as [[o calls] s2].
Qed.

Lemma run_invokeAll_cons (hook : Hook) (args : nat → Z) (retval : Z)
    (rest : list ((nat → Z) * Z)) (s : S) :
  run respond (invokeAll hook ((args, retval) :: rest)) s
  = let '(o, calls1, s1) := run respond (invoke hook args retval) s in
    let '(os, calls2, s2) := run respond (invokeAll hook rest) s1 in
    (match os with inl x => inl x | inr l => inr (o :: l) end,
     calls1 ++ calls2, s2).
Proof.
  simpl. rewrite run_andThen, run_caught.
  destruct (run respond (invoke hook args retval) s) as [[o calls1] s1].
  rewrite run_andThen.
  destruct (run respond (invokeAll hook rest) s1) as [[[x|l] calls2] s2]; simpl.
  - by destruct o.
  - rewrite app_nil_r. by destruct o.
Qed.

Lemma memory_only (calls : list HookCall) :
  Forall (λ c, ∃ m, c = Memory m) calls →
  Forall isMemory calls
  ∧ (∀ ev, OnEvent ev ∉ calls) ∧ (∀ err, OnError err ∉ calls).
Proof.
  intros H. split; [done|]. rewrite Forall_forall in H.
  split; intros x Hx; by destruct (H _ Hx).
Qed.

End HookFacts.

(** Against C2 as stated: [bufferOutHook] is the hook attached for
    [bufferOut]; its entry hook runs, its exit action raises, and the exit
    hook ends with that exception without any call: [onError] is not
    called. *)
Lemma bufferOut_failure_skips_onError :
  intercept noHooks bufferOut (VPtr 4096)
    = (let* _ := call (Attach (VPtr 4096) bufferOutHook) in Ret tt)
  ∧ run quietHost (hook_onEnter bufferOutHook (λ _, 4096%Z)) tt
    = (inr {| values := [VPtr 4096]; event := Event.new "g" |}, [], tt)
  ∧ run quietHost
      (hook_onLeave bufferOutHook
         {| values := [VPtr 4096]; event := Event.new "g" |} 0) tt
    = (inl (TypeError "Cannot read property 'length' of undefined"), [], tt).
Proof. split_and!; reflexivity. Qed.

(** C2, amended: when an exit action or the user's [onLeave] raises, the
    exit hook ends with that exception, which so reaches the interception
    layer that called the hook; up to then the hook has only read memory:
    it has called neither [onError] nor [onEvent], so the partly filled
    event is not delivered.  The invocations that follow run as they would
    have otherwise, from the state the host is then in. *)
Theorem exit_failure_propagates {S} (respond : S → HookCall → (Exn + Value) * S)
    (callbacks : Callbacks) (name : string) (numArgs : nat)
    (inputActions outputActions : list Action)
    (this : Invocation) (retval : Z) (s : S)
    (e : Exn) (calls : list HookCall) (s' : S)
    (Hraises : exitRaises respond callbacks outputActions this retval s e calls s') :
  let hook := makeHook callbacks name numArgs inputActions outputActions in
  run respond (hook_onLeave hook this retval) s = (inl e, calls, s')
  ∧ Forall isMemory calls
  ∧ (∀ ev, OnEvent ev ∉ calls)
  ∧ (∀ err, OnError err ∉ calls)
  ∧ (∀ args s0 calls0 rest,
       run respond (hook_onEnter hook args) s0 = (inr this, calls0, s) →
       run respond (invokeAll hook ((args, retval) :: rest)) s0
       = let '(os, calls', s'') := run respond (invokeAll hook rest) s' in
         (match os with inl x => inl x | inr l => inr (inl e :: l) end,
          (calls0 ++ calls) ++ calls', s'')).
Proof.
  intros hook.
  assert (Hrun : run respond (hook_onLeave hook this retval) s = (inl e, calls, s')).
  { destruct Hraises as [e calls s' H|ev calls1 s1 userLeave e calls2 s' H1 Hu H2];
      simpl; rewrite run_andThen.
    - by rewrite H.
    - rewrite H1, Hu, run_andThen, H2. done. }
  assert (Hmem : Forall (λ c, ∃ m, c = Memory m) calls).
  { destruct Hraises as [e calls s' H|ev calls1 s1 userLeave e calls2 s' H1 Hu H2].
    - pose proof (run_lift_calls respond Memory
        (runActions outputActions (values this ++ [VPtr retval]) (event this)) s) as Hl.
      by rewrite H in Hl.
    - apply Forall_app. split.
      + pose proof (run_lift_calls respond Memory
          (runActions outputActions (values this ++ [VPtr retval]) (event this)) s) as Hl.
        by rewrite H1 in Hl.
      + pose proof (run_lift_calls respond Memory (userLeave ev retval) s1) as Hl.
        by rewrite H2 in Hl. }
  destruct (memory_only calls Hmem) as (? & ? & ?).
  split_and!; [done..|].
  intros args s0 calls0 rest Henter.
  rewrite run_invokeAll_cons. unfold invoke.
  rewrite run_andThen, Henter. fold hook. rewrite Hrun. done.
Qed.

Lemma exit_failure_propagates_witness :
  run quietHost
    (hook_onLeave (makeHook noHooks "g" 1 []
                     [computeAction (argOut "buf" (Plain BYTE_ARRAY) None) 0])
       {| values := [VPtr 4096]; event := Event.new "g" |} 0) tt
  = (inl (TypeError "Cannot read property 'length' of undefined"), [], tt).
Proof.
  apply (exit_failure_propagates quietHost noHooks "g" 1 []
           [computeAction (argOut "buf" (Plain BYTE_ARRAY) None) 0]
           {| values := [VPtr 4096]; event := Event.new "g" |} 0 tt).
  apply actionRaises. reflexivity.
Defined.

(** ** The round-trip schema of the specification, end to end *)

Example roundTrip_hook :
  intercept noHooks roundTrip (VPtr 4096)
  = (let* _ := call (Attach (VPtr 4096) roundTripHook) in Ret tt).
Proof. reflexivity. Qed.

(** With [a = 5] the event has the fields [a], [b] and [result]. *)
Example roundTrip_positive :
  run quietHost
    (invoke roundTripHook (λ i, match i with O => 5 | _ => 64 end)%Z 7) tt
  = (inr tt,
     [OnEvent {| Event.name := "f";
                 Event.args := {| Obj.own := [("a", VNum 5); ("b", VNum 64)];
                                  Obj.proto := VObjectPrototype |};
                 Event.result := Some (VNum 7) |}],
     tt).
Proof. by vm_compute. Qed.

(** With [a = -1] it has [a] and [result], and no [b]. *)
Example roundTrip_negative :
  run quietHost
    (invoke roundTripHook (λ i, match i with O => -1 | _ => 64 end)%Z 7) tt
  = (inr tt,
     [OnEvent {| Event.name := "f";
                 Event.args := {| Obj.own := [("a", VNum (-1))];
                                  Obj.proto := VObjectPrototype |};
                 Event.result := Some (VNum 7) |}],
     tt).
Proof. by vm_compute. Qed.

(** A buffer whose length is bound to an earlier argument is read with the
    decoded value of that argument. *)
Example lengthThenBuffer_reads_with_length :
  schedule lengthThenBuffer = Some (true, [(0, "len"); (1, "buf")], [])
  ∧ (run quietHost
       (runActions [computeAction (argIn "len" (Plain INT) None) 0;
                    computeAction
                      (argIn "buf" (Dependent BYTE_ARRAY (bind "length" "len")) None) 1]
          [VPtr 3; VPtr 4096] (Event.new "h")) tt).1.2
    = [ReadByteArray (VPtr 4096) (VNum 3)].
Proof. split; by vm_compute. Qed.

(** * Further properties *)

(** ** Further properties of the action compiler *)

(** X1: both loops of [computeActions] end: it returns within one scan
    more than there are descriptors per loop, and allowing more scans
    changes nothing. *)
Theorem computeActions_scans_bounded (func : Func) (extra : nat) :
  is_Some (computeActions func)
  ∧ computeActionsWithin (S (length (allArgs func)) + extra) func
    = computeActions func.
Proof.
  destruct (computeActions_unfold func) as (sat1 & ia & sat2 & oa & H1 & H2 & H).
  split; [by rewrite H|]. rewrite H. unfold computeActionsWithin.
  rewrite (doWhile_fuel _ _ (S (length (allArgs func)) + extra) _ _ H1) by lia.
  cbn [mbind option_bind].
  by rewrite (doWhile_fuel _ _ (S (length (allArgs func)) + extra) _ _ H2) by lia.
Qed.

Section Order.
Context (args : list Arg).

Lemma ordered_init (initial : gset string) : ordered args initial (initial, []).
Proof. intros k act Hk. simpl in Hk. by rewrite lookup_nil in Hk. Qed.

Lemma ordered_visit (initial : gset string) acc i a :
  args !! i = Some a →
  scheduled args initial acc → ordered args initial acc →
  ordered args initial (visit acc i a).
Proof.
  intros Hi (Hsat & _) Hord.
  destruct (visit_cases acc i a) as [->|(Hn & Hall & ->)]; [done|].
  intros k act Hk. simpl in Hk |- *.
  destruct (decide (k < length acc.2)) as [Hlt|Hge].
  - rewrite lookup_app_l in Hk by done.
    destruct (Hord k act Hk) as (b & Hb & Hact & Hdeps).
    exists b. split_and!; [done..|].
    intros dep Hdep. rewrite take_app_le by lia. by apply Hdeps.
  - rewrite lookup_app_r in Hk by lia.
    apply list_lookup_singleton_Some in Hk as [Hk0 <-].
    rewrite action_index_computeAction. exists a. split_and!; [done..|].
    intros dep Hdep. rewrite Forall_forall in Hall.
    pose proof (Hall dep Hdep) as Hin. rewrite Hsat in Hin.
    apply elem_of_union in Hin as [Hin|Hin]; [by left|right].
    apply elem_of_list_to_set in Hin.
    rewrite take_app_ge by lia. apply list_elem_of_fmap.
    apply list_elem_of_fmap in Hin as (act & -> & Hact).
    exists act. split; [done|]. apply elem_of_app. by left.
Qed.

Lemma doWhile_ordered fuel (initial : gset string) acc :
  doWhile fuel args (initial, []) = Some acc →
  scheduled args initial acc ∧ ordered args initial acc.
Proof.
  apply (doWhile_inv args
           (λ acc, scheduled args initial acc ∧ ordered args initial acc)).
  - intros acc' i a Hi [Hs Ho]. split.
    + by apply scheduled_visit.
    + by apply ordered_visit.
  - split; [apply scheduled_init|apply ordered_init].
Qed.

End Order.

(** X2: the compiled lists are in dependency order.  Every action is
    compiled from the descriptor at its position, and each name that
    descriptor requires is the name of an action earlier in the list (entry
    actions first, then exit actions), or is ["$out"] for an exit action. *)
Theorem schedule_respects_dependencies (func : Func) :
  ∃ ok inputActions outputActions,
    computeActions func = Some (ok, inputActions, outputActions)
    ∧ ∀ k act, (inputActions ++ outputActions) !! k = Some act →
        ∃ a, allArgs func !! action_index act = Some a
             ∧ act = computeAction a (action_index act)
             ∧ ∀ dep, dep ∈ requires a →
                 dep ∈ action_name <$> take k (inputActions ++ outputActions)
                 ∨ (dep = "$out" ∧ length inputActions ≤ k).
Proof.
  destruct (computeActions_unfold func) as (sat1 & ia & sat2 & oa & H1 & H2 & ->).
  eexists _, ia, oa. split; [done|].
  destruct (doWhile_ordered _ _ _ _ H1) as [(Hs1 & _) Ho1].
  destruct (doWhile_ordered _ _ _ _ H2) as [_ Ho2].
  simpl in Hs1. intros k act Hk.
  destruct (decide (k < length ia)) as [Hlt|Hge].
  - rewrite lookup_app_l in Hk by done.
    destruct (Ho1 k act Hk) as (a & Ha & Hact & Hdeps).
    exists a. split_and!; [done..|]. intros dep Hdep.
    destruct (Hdeps dep Hdep) as [Hin|Hin]; [by apply elem_of_empty in Hin|].
    left. simpl in Hin. by rewrite take_app_le by lia.
  - rewrite lookup_app_r in Hk by lia.
    destruct (Ho2 _ act Hk) as (a & Ha & Hact & Hdeps).
    exists a. split_and!; [done..|]. intros dep Hdep. simpl in Hdeps.
    rewrite take_app_ge, fmap_app by lia.
    destruct (Hdeps dep Hdep) as [Hin|Hin].
    + apply elem_of_union in Hin as [Hin|Hin].
      * left. apply elem_of_app. left. rewrite Hs1 in Hin.
        apply elem_of_union in Hin as [Hin|Hin];
          [by apply elem_of_empty in Hin|by apply elem_of_list_to_set in Hin].
      * right. apply elem_of_singleton in Hin. split; [done|lia].
    + left. apply elem_of_app. by right.
Qed.

(** X3: no name and no position is scheduled twice, whatever the schema:
    the names of the actions are pairwise different, so are their positions,
    and there are at most as many actions as descriptors. *)
Theorem actions_are_distinct (func : Func) :
  ∃ ok inputActions outputActions,
    computeActions func = Some (ok, inputActions, outputActions)
    ∧ NoDup (action_name <$> (inputActions ++ outputActions))
    ∧ NoDup (action_index <$> (inputActions ++ outputActions))
    ∧ length inputActions + length outputActions ≤ length (allArgs func).
Proof.
  destruct (computeActions_unfold func) as (sat1 & ia & sat2 & oa & H1 & H2 & ->).
  eexists _, ia, oa. split; [done|].
  destruct (doWhile_scheduled _ _ _ _ H1) as (Hs1 & Hnd1 & _ & Htie1).
  destruct (doWhile_scheduled _ _ _ _ H2) as (_ & Hnd2 & Hfresh & Htie2).
  simpl in Hs1, Hnd1, Htie1, Hnd2, Hfresh, Htie2.
  assert (Htie : Forall (λ act, ∃ a, allArgs func !! action_index act = Some a
                          ∧ act = computeAction a (action_index act)) (ia ++ oa))
    by by apply Forall_app.
  rewrite Forall_forall in Htie.
  assert (Hnames : NoDup (action_name <$> (ia ++ oa))).
  { rewrite fmap_app. apply NoDup_app. split_and!; [done| |done].
    intros n Hn Hn'. apply (Hfresh n Hn'). apply elem_of_union_l.
    rewrite Hs1. by apply elem_of_union_r, elem_of_list_to_set. }
  assert (Hidx : NoDup (action_index <$> (ia ++ oa))).
  { apply NoDup_fmap_2_strong; [|by eapply NoDup_fmap_1].
    intros x y Hx Hy Heq.
    destruct (Htie x Hx) as (a & Ha & Hxa), (Htie y Hy) as (b & Hb & Hyb).
    assert (a = b) as -> by congruence.
    rewrite Hxa, Hyb. by rewrite Heq. }
  split_and!; [done..|].
  rewrite <- length_app, <- (length_fmap action_index).
  etrans; [apply (submseteq_length _ (seq 0 (length (allArgs func))))
          |by rewrite length_seq].
  apply NoDup_submseteq; [done|].
  intros i (act & -> & Hact)%list_elem_of_fmap.
  destruct (Htie act Hact) as (a & Ha & _).
  apply elem_of_seq. apply lookup_lt_Some in Ha. lia.
Qed.

(** X4: [computeActions] returns [true] exactly when every descriptor's
    name is the name of a scheduled action or is ["$out"]. *)
Theorem success_means_all_scheduled (func : Func) :
  ∃ ok inputActions outputActions,
    computeActions func = Some (ok, inputActions, outputActions)
    ∧ (ok = true ↔
       ∀ a, a ∈ allArgs func →
            name a ∈ action_name <$> (inputActions ++ outputActions)
            ∨ name a = "$out").
Proof.
  destruct (computeActions_unfold func) as (sat1 & ia & sat2 & oa & H1 & H2 & ->).
  eexists _, ia, oa. split; [done|].
  destruct (doWhile_scheduled _ _ _ _ H1) as (Hs1 & _).
  destruct (doWhile_scheduled _ _ _ _ H2) as (Hs2 & _).
  simpl in Hs1, Hs2. rewrite all_satisfied.
  assert (Hsat : ∀ n, n ∈ sat2 ↔ n ∈ action_name <$> (ia ++ oa) ∨ n = "$out").
  { intros n. rewrite Hs2, Hs1, fmap_app, elem_of_app, !elem_of_union,
      !elem_of_list_to_set, elem_of_singleton, elem_of_empty. tauto. }
  split; intros H a Ha; apply Hsat; by apply H.
Qed.

(** In the entry loop nothing that requires the sentinel is scheduled,
    unless a descriptor carries the sentinel's name. *)
Lemma entry_loop_skips_sentinel (args : list Arg) (fuel : nat)
    (satisfied : gset string) (inputActions : list Action) :
  "$out" ∉ names args →
  doWhile fuel args (∅, []) = Some (satisfied, inputActions) →
  ∀ i a, args !! i = Some a → "$out" ∈ requires a →
         i ∉ action_index <$> inputActions.
Proof.
  intros Hsentinel H1.
  destruct (doWhile_ordered _ _ _ _ H1) as [(_ & _ & _ & Htie) Ho].
  simpl in Htie. rewrite Forall_forall in Htie.
  intros i a Hi Hout (act & -> & Hact)%list_elem_of_fmap.
  apply list_elem_of_lookup in Hact as [k Hk].
  destruct (Ho k act Hk) as (b & Hb & _ & Hdeps).
  assert (b = a) as -> by congruence.
  destruct (Hdeps _ Hout) as [Hin|Hin]; [by apply elem_of_empty in Hin|].
  simpl in Hin. apply list_elem_of_fmap in Hin as (act' & Hname & Hact').
  apply elem_of_take in Hact' as (j & Hj & _).
  destruct (Htie act' (list_elem_of_lookup_2 _ _ _ Hj)) as (c & Hc & Heq).
  apply Hsentinel. rewrite Hname, Heq, action_name_computeAction.
  apply elem_of_names. by eapply list_elem_of_lookup_2.
Qed.

(** X6: if no descriptor is named ["$out"], a descriptor that requires
    ["$out"] -- every descriptor of direction [OUT], the return value
    built by [retval] included -- is never scheduled as an entry action. *)
Theorem out_descriptors_wait_for_exit (func : Func)
    (Hsentinel : "$out" ∉ names (allArgs func)) :
  ∃ ok inputActions outputActions,
    computeActions func = Some (ok, inputActions, outputActions)
    ∧ (∀ i a, allArgs func !! i = Some a → "$out" ∈ requires a →
              i ∉ action_index <$> inputActions)
    ∧ (∀ i n t c, allArgs func !! i = Some (arg OUT n t c) →
                  i ∉ action_index <$> inputActions).
Proof.
  destruct (computeActions_unfold func) as (sat1 & ia & sat2 & oa & H1 & H2 & ->).
  eexists _, ia, oa. split; [done|].
  pose proof (entry_loop_skips_sentinel _ _ _ _ Hsentinel H1) as Hgen.
  split; [done|]. intros i n t c Hi. apply (Hgen i _ Hi).
  simpl. rewrite dependencies_eq. apply elem_of_app. left. by left.
Qed.

Lemma out_descriptors_wait_for_exit_witness :
  ∃ ok inputActions outputActions,
    computeActions roundTrip = Some (ok, inputActions, outputActions)
    ∧ (∀ i a, allArgs roundTrip !! i = Some a → "$out" ∈ requires a →
              i ∉ action_index <$> inputActions)
    ∧ (∀ i n t c, allArgs roundTrip !! i = Some (arg OUT n t c) →
                  i ∉ action_index <$> inputActions).
Proof.
  apply (out_descriptors_wait_for_exit roundTrip). vm_compute. set_solver.
Defined.

(** *** Schemas without bindings and conditions *)

Lemma compileWhere_none (index : nat) (args : list Arg) :
  compileWhere (λ _, false) index args = [].
Proof. revert index. induction args as [|a rest IH]; intros index; simpl; [done|apply IH]. Qed.

Lemma filter_none (args : list Arg) :
  filter (λ a : Arg, false = true) args = [].
Proof. induction args as [|a rest IH]; [done|]. by rewrite filter_cons, decide_False. Qed.

(** A scan in which [keep] tells which descriptors are ready adds exactly
    those, in order. *)
Lemma forEachIndexed_select (keep : Arg → bool) (rest : list Arg) :
  ∀ start satisfied actions,
  NoDup (names rest) →
  (∀ a, a ∈ rest → keep a = true →
        (name a ∉ satisfied) ∧ Forall (λ dep, dep ∈ satisfied) (requires a)) →
  (∀ a, a ∈ rest → keep a = false →
        name a ∈ satisfied
        ∨ ∃ dep, dep ∈ requires a ∧ (dep ∉ satisfied) ∧ (dep ∉ names rest)) →
  forEachIndexed start rest (satisfied, actions)
  = (satisfied ∪ list_to_set (names (filter (λ a, keep a = true) rest)),
     actions ++ compileWhere keep start rest).
Proof.
  induction rest as [|a rest IH]; intros start sat acts Hnd Hkeep Hskip.
  { simpl. rewrite app_nil_r. f_equal. set_solver. }
  apply NoDup_cons in Hnd as [Hfresh Hnd]. fold (names rest) in Hfresh, Hnd.
  change (forEachIndexed start (a :: rest) (sat, acts))
    with (forEachIndexed (S start) rest (visit (sat, acts) start a)).
  change (compileWhere keep start (a :: rest))
    with ((if keep a then [computeAction a start] else [])
          ++ compileWhere keep (S start) rest).
  rewrite filter_cons. destruct (keep a) eqn:Hka.
  - destruct (Hkeep a ltac:(left) Hka) as [Hn Hall].
    rewrite (visit_push (sat, acts) start a Hn Hall). cbn [fst snd].
    rewrite decide_True by done. rewrite IH; [|done|..].
    + f_equal; [|by rewrite <- app_assoc]. unfold names. rewrite fmap_cons.
      simpl. set_solver.
    + intros b Hb Hkb. destruct (Hkeep b ltac:(by right) Hkb) as [Hnb Hallb].
      split.
      * intros [?|Heq%elem_of_singleton]%elem_of_union; [done|].
        apply Hfresh. rewrite <- Heq. by apply elem_of_names.
      * eapply Forall_impl; [done|]. intros dep ?. by apply elem_of_union_l.
    + intros b Hb Hkb.
      destruct (Hskip b ltac:(by right) Hkb) as [?|(dep & Hdep & Hns & Hnn)].
      * left. by apply elem_of_union_l.
      * right. exists dep. split_and!; [done| |].
        -- intros [?|Heq%elem_of_singleton]%elem_of_union; [done|].
           apply Hnn. rewrite Heq. unfold names. rewrite fmap_cons. by left.
        -- intros ?. apply Hnn. unfold names. rewrite fmap_cons. by right.
  - rewrite decide_False by done. rewrite app_nil_l.
    assert (Hv : visit (sat, acts) start a = (sat, acts)).
    { destruct (Hskip a ltac:(left) Hka) as [?|(dep & Hdep & Hns & _)].
      - by apply visit_skip.
      - apply visit_wait. simpl. rewrite Forall_forall. intros H. by apply Hns, H. }
    rewrite Hv. apply IH; [done|..].
    + intros b Hb. apply Hkeep. by right.
    + intros b Hb Hkb.
      destruct (Hskip b ltac:(by right) Hkb) as [?|(dep & Hdep & Hns & Hnn)];
        [by left|right].
      exists dep. split_and!; [done..|]. intros ?. apply Hnn. unfold names. rewrite fmap_cons. by right.
Qed.

(** A scan that a second scan would repeat unchanged ends the loop. *)
Lemma doWhile_settled (args : list Arg) (fuel : nat) acc :
  scan args (scan args acc) = scan args acc →
  length args < fuel →
  doWhile fuel args acc = Some (scan args acc).
Proof.
  intros Hstable Hfuel. destruct fuel as [|fuel]; [lia|]. simpl.
  case_decide as Hsize; [|done].
  destruct fuel as [|fuel].
  - destruct args; [|simpl in Hfuel; lia]. by destruct Hsize.
  - simpl. rewrite Hstable. by rewrite decide_False by (intros H; by apply H).
Qed.

(** X5: for a schema with unique names, none of them ["$out"], whose
    descriptors require nothing but ["$out"] (no bindings, no conditions),
    [computeActions] succeeds; the entry list holds the descriptors that
    require nothing and the exit list the others, each list in declaration
    order, each action at its descriptor's position. *)
Theorem plain_schema_order (func : Func)
    (Hunique : uniqueNames (allArgs func))
    (Hsentinel : "$out" ∉ names (allArgs func))
    (Hplain : ∀ a dep, a ∈ allArgs func → dep ∈ requires a → dep = "$out") :
  computeActions func
  = Some (true,
          compileWhere requiresNothing 0 (allArgs func),
          compileWhere (λ a, negb (requiresNothing a)) 0 (allArgs func)).
Proof.
  set (args := allArgs func) in *.
  set (ready := list_to_set (names (filter (λ a, requiresNothing a = true) args))
                : gset string).
  set (late := list_to_set
                 (names (filter (λ a, negb (requiresNothing a) = true) args))
               : gset string).
  assert (Hready : ∀ a, a ∈ args → requiresNothing a = true → name a ∈ ready).
  { intros a Ha Hk. apply elem_of_list_to_set, elem_of_names.
    by apply list_elem_of_filter. }
  assert (Hready' : ∀ n, n ∈ ready →
            ∃ a, a ∈ args ∧ requiresNothing a = true ∧ name a = n).
  { intros n (a & Ha & <-)%elem_of_list_to_set%names_elem_of.
    apply list_elem_of_filter in Ha as [? ?]. eauto. }
  assert (Hlate : ∀ a, a ∈ args → requiresNothing a = false → name a ∈ late).
  { intros a Ha Hk. apply elem_of_list_to_set, elem_of_names.
    apply list_elem_of_filter. by rewrite Hk. }
  assert (Hblocked : ∀ a, a ∈ args → requiresNothing a = false →
            "$out" ∈ requires a).
  { intros a Ha Hk. apply bool_decide_eq_false in Hk.
    destruct (requires a) as [|dep deps] eqn:Hreq; [done|].
    rewrite (Hplain a dep Ha); [by left|]. rewrite Hreq. by left. }
  assert (Hnot_ready : "$out" ∉ ready).
  { intros (a & Ha & _ & Hn)%Hready'. apply Hsentinel. rewrite <- Hn.
    by apply elem_of_names. }
  (* the entry loop *)
  assert (Hscan1 : scan args (∅, []) = (ready, compileWhere requiresNothing 0 args)).
  { unfold scan. rewrite (forEachIndexed_select requiresNothing); [|done|..].
    - f_equal. fold ready. set_solver.
    - intros a Ha Hk. split; [set_solver|].
      apply bool_decide_eq_true in Hk. rewrite Hk. constructor.
    - intros a Ha Hk. right. exists "$out". split_and!; [by apply Hblocked| |done].
      set_solver. }
  assert (Hagain1 : scan args (ready, compileWhere requiresNothing 0 args)
                    = (ready, compileWhere requiresNothing 0 args)).
  { unfold scan. rewrite (forEachIndexed_select (λ _, false)); [|done|..].
    - rewrite compileWhere_none, filter_none, app_nil_r. f_equal. set_solver.
    - done.
    - intros a Ha _. destruct (requiresNothing a) eqn:Hk; [left; by apply Hready|].
      right. exists "$out". split_and!; [by apply Hblocked|done..]. }
  assert (H1 : doWhile (S (length args)) args (∅, [])
               = Some (ready, compileWhere requiresNothing 0 args)).
  { rewrite <- Hscan1. apply doWhile_settled; [|lia]. by rewrite Hscan1. }
  (* the exit loop *)
  assert (Hscan2 : scan args (ready ∪ {["$out"]}, [])
            = (ready ∪ {["$out"]} ∪ late,
               compileWhere (λ a, negb (requiresNothing a)) 0 args)).
  { unfold scan.
    rewrite (forEachIndexed_select (λ a, negb (requiresNothing a))); [done|done|..].
    - intros a Ha Hk. apply negb_true_iff in Hk. split.
      + intros [Hin|Hin%elem_of_singleton]%elem_of_union.
        * apply Hready' in Hin as (b & Hb & Hkb & Hn).
          rewrite (uniqueNames_elem args b a) in Hkb by done. congruence.
        * apply Hsentinel. rewrite <- Hin. by apply elem_of_names.
      + rewrite Forall_forall. intros dep Hdep.
        rewrite (Hplain a dep Ha Hdep). set_solver.
    - intros a Ha Hk. apply negb_false_iff in Hk. left.
      apply elem_of_union_l. by apply Hready. }
  assert (Hagain2 : scan args (ready ∪ {["$out"]} ∪ late,
                       compileWhere (λ a, negb (requiresNothing a)) 0 args)
            = (ready ∪ {["$out"]} ∪ late,
               compileWhere (λ a, negb (requiresNothing a)) 0 args)).
  { unfold scan. rewrite (forEachIndexed_select (λ _, false)); [|done|..].
    - rewrite compileWhere_none, filter_none, app_nil_r. f_equal. set_solver.
    - done.
    - intros a Ha _. left. destruct (requiresNothing a) eqn:Hk.
      + apply elem_of_union_l, elem_of_union_l. by apply Hready.
      + apply elem_of_union_r. by apply Hlate. }
  assert (H2 : doWhile (S (length args)) args (ready ∪ {["$out"]}, [])
               = Some (ready ∪ {["$out"]} ∪ late,
                       compileWhere (λ a, negb (requiresNothing a)) 0 args)).
  { rewrite <- Hscan2. apply doWhile_settled; [|lia]. by rewrite Hscan2. }
  unfold computeActions, computeActionsWithin. fold args.
  rewrite H1. cbn [mbind option_bind]. rewrite H2. cbn [mbind option_bind].
  assert (negb (existsb (λ arg, negb (bool_decide
            (name arg ∈ ready ∪ {["$out"]} ∪ late))) args) = true) as ->; [|done].
  apply all_satisfied. intros a Ha. destruct (requiresNothing a) eqn:Hk.
  - apply elem_of_union_l, elem_of_union_l. by apply Hready.
  - apply elem_of_union_r. by apply Hlate.
Qed.

Lemma plain_schema_order_witness :
  computeActions plainMix
  = Some (true,
          compileWhere requiresNothing 0 (allArgs plainMix),
          compileWhere (λ a, negb (requiresNothing a)) 0 (allArgs plainMix)).
Proof.
  apply (plain_schema_order plainMix).
  - vm_compute. repeat constructor; set_solver.
  - vm_compute. set_solver.
  - intros a dep Ha Hdep.
    assert (H : (name a, dep) ∈ edges (allArgs plainMix))
      by (apply dependsOn_edges; by exists a).
    vm_compute in H. set_solver.
Defined.

Example plainMix_layout :
  layout (compileWhere requiresNothing 0 (allArgs plainMix)) = [(0, "a"); (2, "c")]
  ∧ layout (compileWhere (λ a, negb (requiresNothing a)) 0 (allArgs plainMix))
    = [(1, "b"); (3, "result")].
Proof. split; by vm_compute. Qed.

(** ** Further properties of the target resolver *)

Section ResolverFacts.
Context {S : Type} (respond : S → SetupCall → (Exn + Value) * S).

(** On a host that answers every call, [intercept] returns, after one call
    that is neither a memory read nor an export lookup. *)
Lemma run_intercept_answers (callbacks : Callbacks) (func : Func)
    (impl : Value) (s : S) :
  answers respond →
  ∃ c s', run respond (intercept callbacks func impl) s = (inr tt, [c], s')
          ∧ memoryReads [c] = [] ∧ exportLookups [c] = [].
Proof.
  intros Hanswers. unfold intercept.
  destruct (computeActions_unfold func) as (? & ia & ? & oa & _ & _ & ->).
  destruct (negb _); simpl.
  - destruct (Hanswers s (Attach impl
      (makeHook callbacks (func_name func) (length (args func)) ia oa)))
      as (v & s' & ->). by eexists _, _.
  - destruct (Hanswers s (Runtime (OnError (CircularDependencies (func_name func)))))
      as (v & s' & ->). by eexists _, _.
Qed.

Lemma memoryReads_app (l k : list SetupCall) :
  memoryReads (l ++ k) = memoryReads l ++ memoryReads k.
Proof. apply omap_app. Qed.

Lemma exportLookups_app (l k : list SetupCall) :
  exportLookups (l ++ k) = exportLookups l ++ exportLookups k.
Proof. apply omap_app. Qed.

Lemma memoryReads_cons (m : MemCall) (l : list SetupCall) :
  memoryReads (Runtime (Memory m) :: l) = m :: memoryReads l.
Proof. done. Qed.

(** One step of the vtable walk at a slot that can be read. *)
Lemma run_walkVtable_function (W : Z)
    (intercept : Func → Value → Prog SetupCall unit) (vtable offset : Z)
    (entry : Func) (rest : list Entry) (s s1 : S) (impl : Value) :
  respond s (Runtime (Memory (ReadPointer
               (VPtr (NativePointer_add W vtable offset))))) = (inr impl, s1) →
  run respond (walkVtable W intercept vtable offset (Function entry :: rest)) s
  = let '(o, calls, s2) :=
      run respond (let* _ := intercept entry impl in
                   walkVtable W intercept vtable (offset + W) rest) s1 in
    (o, Runtime (Memory (ReadPointer (VPtr (NativePointer_add W vtable offset))))
        :: calls, s2).
Proof. intros H. simpl. by rewrite H. Qed.

End ResolverFacts.

(** X8: in module mode, when [Module.findExportByName] returns [null]
    for a function, [trace] reports that to [onError] with the module and
    the function's name, attaches nothing for it, and goes on with the
    remaining functions. *)
Theorem unresolved_export_is_skipped {S} (W : Z)
    (respond : S → SetupCall → (Exn + Value) * S)
    (callbacks : Callbacks) (module : string) (func : Func) (rest : list Func)
    (s s1 s2 : S) (u : Value)
    (Hfind : respond s (FindExportByName module (func_name func)) = (inr VNull, s1))
    (Hreport : respond s1 (Runtime (OnError
                 (FailedToResolve module (func_name func)))) = (inr u, s2)) :
  run respond
    (trace W {| locator := InModule module (func :: rest);
                callbacks := callbacks |}) s
  = let '(o, calls, s3) :=
      run respond
        (trace W {| locator := InModule module rest; callbacks := callbacks |}) s2 in
    (o, FindExportByName module (func_name func)
        :: Runtime (OnError (FailedToResolve module (func_name func)))
        :: calls, s3).
Proof.
  change (trace W {| locator := InModule module (func :: rest);
                     callbacks := callbacks |})
    with (let* _ := resolveByName (intercept callbacks) module func in
          forEach (resolveByName (intercept callbacks) module) rest).
  change (trace W {| locator := InModule module rest; callbacks := callbacks |})
    with (forEach (resolveByName (intercept callbacks) module) rest).
  rewrite run_andThen.
  assert (Hres : run respond (resolveByName (intercept callbacks) module func) s
            = (inr tt, [FindExportByName module (func_name func);
                        Runtime (OnError (FailedToResolve module (func_name func)))],
               s2)).
  { unfold resolveByName. rewrite run_andThen, run_call, Hfind. cbn [fst snd].
    rewrite run_andThen, run_call, Hreport. done. }
  rewrite Hres.
  by destruct (run respond (forEach _ rest) s2) as [[o calls] s3].
Qed.

Lemma unresolved_export_is_skipped_witness :
  run (λ (s : unit) (c : SetupCall), (inr VNull, s))
    (trace 8 {| locator := InModule "libc" [roundTrip]; callbacks := noHooks |}) tt
  = (inr tt, [FindExportByName "libc" "f";
              Runtime (OnError (FailedToResolve "libc" "f"))], tt).
Proof.
  apply (unresolved_export_is_skipped 8 (λ (s : unit) (c : SetupCall), (inr VNull, s))
           noHooks "libc" roundTrip [] tt tt tt VNull); reflexivity.
Defined.

(** X9: in vtable mode, when reading a slot throws, [trace] reports the
    offset and the exception to [onError] and stops: the entries after the
    failing one are not looked at, whatever they are. *)
Theorem vtable_read_failure_stops_walk {S} (W : Z)
    (respond : S → SetupCall → (Exn + Value) * S)
    (callbacks : Callbacks) (vtable offset : Z) (entry : Func)
    (rest : list Entry) (s s1 : S) (e : Exn)
    (Hread : respond s (Runtime (Memory (ReadPointer
                 (VPtr (NativePointer_add W vtable offset))))) = (inl e, s1)) :
  let report := Runtime (OnError (FailedToReadVtable offset e)) in
  run respond
    (walkVtable W (intercept callbacks) vtable offset (Function entry :: rest)) s
  = (match (respond s1 report).1 with inl e' => inl e' | inr _ => inr tt end,
     [Runtime (Memory (ReadPointer (VPtr (NativePointer_add W vtable offset))));
      report],
     (respond s1 report).2).
Proof.
  intros report. subst report. simpl. rewrite Hread. simpl.
  by destruct (respond s1 _) as [[e'|v] s2].
Qed.

Lemma vtable_read_failure_stops_walk_witness :
  run (λ (s : unit) (c : SetupCall),
         match c with
         | Runtime (Memory _) => (inl (Error "access violation"), s)
         | _ => (inr VUndefined, s)
         end)
    (walkVtable 8 (intercept noHooks) 4096 0 [Function roundTrip; Function bufferOut]) tt
  = (inr tt,
     [Runtime (Memory (ReadPointer (VPtr (NativePointer_add 8 4096 0))));
      Runtime (OnError (FailedToReadVtable 0 (Error "access violation")))],
     tt).
Proof.
  apply (vtable_read_failure_stops_walk 8
           (λ (s : unit) (c : SetupCall),
              match c with
              | Runtime (Memory _) => (inl (Error "access violation"), s)
              | _ => (inr VUndefined, s)
              end) noHooks 4096 0 roundTrip [Function bufferOut] tt tt).
  reflexivity.
Defined.

(** X10: on a host that answers every call, the slot of a function
    entry is read at [base + (offset + W * n)], where [n] counts the slots
    of the entries before it: one for each function, [k] for [padding(k)];
    it is the next memory read after those of the functions before it. *)
Theorem vtable_slot_address {S} (W : Z)
    (respond : S → SetupCall → (Exn + Value) * S)
    (Hanswers : answers respond)
    (callbacks : Callbacks) (vtable : Z) (pre : list Entry) (entry : Func)
    (post : list Entry) :
  ∀ (offset : Z) (s : S),
  memoryReads
    (run respond
       (walkVtable W (intercept callbacks) vtable offset
          (pre ++ Function entry :: post)) s).1.2
    !! length (filter (λ e, isFunction e = true) pre)
  = Some (ReadPointer
            (VPtr (NativePointer_add W vtable (offset + W * slotsBefore pre)))).
Proof.
  induction pre as [|[g|n] pre IH]; intros offset s.
  - destruct (Hanswers s (Runtime (Memory (ReadPointer
        (VPtr (NativePointer_add W vtable offset)))))) as (impl & s1 & Hread).
    change ([] ++ Function entry :: post) with (Function entry :: post).
    rewrite (run_walkVtable_function respond _ _ _ _ _ _ _ _ _ Hread).
    destruct (run respond _ s1) as [[o cs] s2]. cbn [fst snd].
    rewrite memoryReads_cons. simpl. by rewrite Z.mul_0_r, Z.add_0_r.
  - rewrite filter_cons, decide_True by done.
    change ((Function g :: pre) ++ Function entry :: post)
      with (Function g :: (pre ++ Function entry :: post)).
    destruct (Hanswers s (Runtime (Memory (ReadPointer
        (VPtr (NativePointer_add W vtable offset)))))) as (impl & s1 & Hread).
    rewrite (run_walkVtable_function respond _ _ _ _ _ _ _ _ _ Hread).
    rewrite run_andThen.
    destruct (run_intercept_answers respond callbacks g impl s1 Hanswers)
      as (c & s2 & -> & Hmem & _).
    specialize (IH (offset + W)%Z s2).
    destruct (run respond (walkVtable W (intercept callbacks) vtable (offset + W)
                (pre ++ Function entry :: post)) s2) as [[o cs'] s3].
    cbn [fst snd] in IH |- *.
    rewrite memoryReads_cons, (memoryReads_app [c] cs'), Hmem, app_nil_l.
    transitivity (memoryReads cs'
                    !! length (filter (λ e, isFunction e = true) pre));
      [reflexivity|].
    rewrite IH.
    assert (offset + W + W * slotsBefore pre
            = offset + W * slotsBefore (Function g :: pre))%Z as ->; [|done].
    cbn [slotsBefore foldr slotsOf]. fold (slotsBefore pre). ring.
  - rewrite filter_cons, decide_False by done.
    change ((Padding n :: pre) ++ Function entry :: post)
      with (Padding n :: (pre ++ Function entry :: post)).
    change (walkVtable W (intercept callbacks) vtable offset
              (Padding n :: pre ++ Function entry :: post))
      with (walkVtable W (intercept callbacks) vtable (offset + n * W)
              (pre ++ Function entry :: post)).
    rewrite IH.
    assert (offset + n * W + W * slotsBefore pre
            = offset + W * slotsBefore (Padding n :: pre))%Z as ->; [|done].
    cbn [slotsBefore foldr slotsOf]. fold (slotsBefore pre). ring.
Qed.

Lemma vtable_slot_address_witness :
  memoryReads
    (run quietHost
       (walkVtable 8 (intercept noHooks) 4096 0
          ([padding 2; Function bufferOut; padding 3] ++ Function roundTrip :: [])) tt).1.2
    !! length (filter (λ e, isFunction e = true)
                 [padding 2; Function bufferOut; padding 3])
  = Some (ReadPointer (VPtr (NativePointer_add 8 4096
            (0 + 8 * slotsBefore [padding 2; Function bufferOut; padding 3])))).
Proof.
  apply (vtable_slot_address 8 quietHost).
  intros s c. by eexists _, _.
Defined.

(** X11: on a host that answers every call, module mode looks every
    function up exactly once, in the order of [spec.functions], whether or
    not earlier ones resolved or compiled; each function costs two calls
    (the lookup, then [Interceptor.attach] or [onError]), and [trace]
    returns. *)
Theorem module_mode_looks_up_every_function {S} (W : Z)
    (respond : S → SetupCall → (Exn + Value) * S)
    (Hanswers : answers respond)
    (callbacks : Callbacks) (module : string) (functions : list Func) :
  ∀ s : S,
  (run respond
     (trace W {| locator := InModule module functions;
                 callbacks := callbacks |}) s).1.1 = inr tt
  ∧ exportLookups
      (run respond
         (trace W {| locator := InModule module functions;
                     callbacks := callbacks |}) s).1.2
    = (λ f, (module, func_name f)) <$> functions
  ∧ length (run respond
              (trace W {| locator := InModule module functions;
                          callbacks := callbacks |}) s).1.2
    = 2 * length functions.
Proof.
  change (trace W {| locator := InModule module functions; callbacks := callbacks |})
    with (forEach (resolveByName (intercept callbacks) module) functions).
  induction functions as [|f rest IH]; intros s; [done|].
  change (forEach (resolveByName (intercept callbacks) module) (f :: rest))
    with (let* _ := resolveByName (intercept callbacks) module f in
          forEach (resolveByName (intercept callbacks) module) rest).
  rewrite run_andThen.
  assert (Hres : ∃ c s', run respond (resolveByName (intercept callbacks) module f) s
            = (inr tt, [FindExportByName module (func_name f); c], s')
            ∧ exportLookups [c] = []).
  { unfold resolveByName. rewrite run_andThen, run_call.
    destruct (Hanswers s (FindExportByName module (func_name f))) as (impl & s1 & ->).
    cbn [fst snd].
    assert (Hnull : ∃ c s', run respond
              (let* _ := call (Runtime (OnError
                           (FailedToResolve module (func_name f)))) in Ret tt) s1
              = (inr tt, [c], s') ∧ exportLookups [c] = []).
    { rewrite run_andThen, run_call.
      destruct (Hanswers s1 (Runtime (OnError
                  (FailedToResolve module (func_name f))))) as (v & s2 & ->).
      by eexists _, _. }
    destruct (run_intercept_answers respond callbacks f impl s1 Hanswers)
      as (c & s2 & Hrun & _ & Hlook).
    destruct impl;
      first [destruct Hnull as (c' & s' & -> & ?); by eexists _, _
            |rewrite Hrun; by eexists _, _]. }
  destruct Hres as (c & s' & -> & Hlook).
  destruct (IH s') as (Ho & Hl & Hlen).
  destruct (run respond (forEach _ rest) s') as [[o cs] s3]. cbn [fst snd] in *.
  split_and!; [done| |cbn [app length]; lia].
  rewrite fmap_cons, <- Hl.
  change (exportLookups ([FindExportByName module (func_name f); c] ++ cs))
    with ((module, func_name f) :: exportLookups ([c] ++ cs)).
  by rewrite exportLookups_app, Hlook.
Qed.

Lemma module_mode_looks_up_every_function_witness :
  exportLookups
    (run quietHost
       (trace 8 {| locator := InModule "libc" [roundTrip; bufferOut];
                   callbacks := noHooks |}) tt).1.2
  = (λ f, ("libc", func_name f)) <$> [roundTrip; bufferOut].
Proof.
  apply (module_mode_looks_up_every_function 8 quietHost).
  intros s c. by eexists _, _.
Defined.

(** ** Further properties of the hooks and the actions *)

Lemma run_lift_memory {S A} (respond : S → HookCall → (Exn + Value) * S)
    (p : Prog MemCall A) (s : S) :
  Forall isMemory (run respond (lift Memory p) s).1.2.
Proof. apply (run_lift_calls respond Memory p s). Qed.

(** X12: whatever the host does, the exit hook reads memory and then, at
    most once and as its last call, hands an event to [onEvent]; it never
    calls [onError]; when it returns, it has delivered exactly one event. *)
Theorem exit_hook_delivers_once {S} (respond : S → HookCall → (Exn + Value) * S)
    (callbacks : Callbacks) (name : string) (numArgs : nat)
    (inputActions outputActions : list Action)
    (this : Invocation) (retval : Z) (s : S) :
  let out := run respond
               (hook_onLeave (makeHook callbacks name numArgs
                                inputActions outputActions) this retval) s in
  ∃ reads, Forall isMemory reads
    ∧ ((∃ e, out.1.1 = inl e ∧ out.1.2 = reads)
       ∨ (∃ ev, out.1.2 = reads ++ [OnEvent ev]))
    ∧ length (filter (λ c, isOnEvent c = true) out.1.2) ≤ 1
    ∧ filter (λ c, isOnError c = true) out.1.2 = []
    ∧ (out.1.1 = inr tt →
       length (filter (λ c, isOnEvent c = true) out.1.2) = 1).
Proof.
  intros out.
  assert (Hquiet : ∀ reads, Forall isMemory reads →
            filter (λ c, isOnEvent c = true) reads = []
            ∧ filter (λ c, isOnError c = true) reads = []).
  { induction 1 as [|c reads [m ->] _ [IH1 IH2]]; [done|].
    by rewrite !filter_cons, !decide_False by done. }
  assert (Hshape : ∃ reads, Forall isMemory reads
            ∧ ((∃ e, out.1.1 = inl e ∧ out.1.2 = reads)
               ∨ (∃ ev, out.1.2 = reads ++ [OnEvent ev]))).
  { subst out. cbn [hook_onLeave makeHook]. rewrite run_andThen.
    pose proof (run_lift_memory respond
      (runActions outputActions (values this ++ [VPtr retval]) (event this)) s) as H1.
    destruct (run respond (lift Memory (runActions outputActions _ _)) s)
      as [[[e|ev1] calls1] s1]; cbn [fst snd] in *.
    { exists calls1. split; [done|]. left. by exists e. }
    rewrite run_andThen.
    assert (H2 : ∃ o2 calls2 s2,
              run respond (match onLeave callbacks with
                           | Some onLeave => lift Memory (onLeave ev1 retval)
                           | None => Ret ev1
                           end) s1 = (o2, calls2, s2)
              ∧ Forall isMemory calls2).
    { destruct (onLeave callbacks) as [f|].
      - pose proof (run_lift_memory respond (f ev1 retval) s1) as H.
        destruct (run respond (lift Memory (f ev1 retval)) s1) as [[o2 calls2] s2].
        by eexists _, _, _.
      - by eexists _, _, _. }
    destruct H2 as ([e|ev2] & calls2 & s2 & -> & H2).
    { exists (calls1 ++ calls2). split; [by apply Forall_app|]. left. by exists e. }
    rewrite run_andThen, run_call. cbn [fst snd].
    exists (calls1 ++ calls2). split; [by apply Forall_app|]. right. exists ev2.
    destruct (respond s2 (OnEvent ev2)) as [[e|v] s3]; simpl;
      by rewrite ?app_nil_r, <- ?app_assoc. }
  destruct Hshape as (reads & Hreads & Hcases).
  destruct (Hquiet reads Hreads) as [Hev Herr].
  exists reads. split_and!; [done..| | |].
  - destruct Hcases as [(e & _ & ->)|(ev & ->)].
    + rewrite Hev. simpl. lia.
    + rewrite filter_app, Hev. simpl. done.
  - destruct Hcases as [(e & _ & ->)|(ev & ->)]; [done|].
    by rewrite filter_app, Herr.
  - intros Hok. destruct Hcases as [(e & He & _)|(ev & ->)]; [congruence|].
    by rewrite filter_app, Hev.
Qed.

(** X13: the entry hook only reads memory.  When it returns, it has
    captured the raw words of the first [numArgs] argument positions, so that
    at exit position [i < numArgs] holds argument [i] and position
    [numArgs] holds the return word; at entry position [numArgs] holds
    nothing. *)
Theorem entry_hook_captures_arguments {S}
    (respond : S → HookCall → (Exn + Value) * S)
    (callbacks : Callbacks) (name : string) (numArgs : nat)
    (inputActions outputActions : list Action) (args : nat → Z) (s : S) :
  let out := run respond
               (hook_onEnter (makeHook callbacks name numArgs
                                inputActions outputActions) args) s in
  Forall isMemory out.1.2
  ∧ match out.1.1 with
    | inl _ => True
    | inr this =>
        length (values this) = numArgs
        ∧ (∀ i, i < numArgs → values this !! i = Some (VPtr (args i)))
        ∧ (∀ retval i, i < numArgs →
             nth_value (values this ++ [VPtr retval]) i = VPtr (args i))
        ∧ (∀ retval, nth_value (values this ++ [VPtr retval]) numArgs = VPtr retval)
        ∧ nth_value (values this) numArgs = VUndefined
    end.
Proof.
  intros out. subst out. cbn [hook_onEnter makeHook]. rewrite run_andThen.
  pose proof (run_lift_memory respond
    (runActions inputActions ((λ i, VPtr (args i)) <$> seq 0 numArgs)
       (Event.new name)) s) as H1.
  destruct (run respond (lift Memory (runActions inputActions _ _)) s)
    as [[[e|ev1] calls1] s1]; cbn [fst snd] in *; [done|].
  rewrite run_andThen.
  assert (H2 : ∃ o2 calls2 s2,
            run respond (match onEnter callbacks with
                         | Some onEnter => lift Memory (onEnter ev1 args)
                         | None => Ret ev1
                         end) s1 = (o2, calls2, s2)
            ∧ Forall isMemory calls2).
  { destruct (onEnter callbacks) as [f|].
    - pose proof (run_lift_memory respond (f ev1 args) s1) as H.
      destruct (run respond (lift Memory (f ev1 args)) s1) as [[o2 calls2] s2].
      by eexists _, _, _.
    - by eexists _, _, _. }
  destruct H2 as ([e|ev2] & calls2 & s2 & -> & H2); cbn [fst snd].
  { split; [by apply Forall_app|done]. }
  simpl. rewrite app_nil_r. split; [by apply Forall_app|].
  assert (Hlen : length ((λ i, VPtr (args i)) <$> seq 0 numArgs) = numArgs)
    by by rewrite length_fmap, length_seq.
  assert (Hlook : ∀ i, i < numArgs →
            ((λ i, VPtr (args i)) <$> seq 0 numArgs) !! i = Some (VPtr (args i))).
  { intros i Hi. rewrite list_lookup_fmap, lookup_seq_lt by done. done. }
  split_and!; [done|done| | |].
  - intros retval i Hi. unfold nth_value. rewrite lookup_app_l by lia.
    by rewrite Hlook.
  - intros retval. unfold nth_value. rewrite lookup_app_r by lia.
    by rewrite Hlen, Nat.sub_diag.
  - unfold nth_value. by rewrite lookup_ge_None_2 by lia.
Qed.

(** X7: if no descriptor is named ["$out"] and the return descriptor, when
    there is one, requires ["$out"], every compiled action reads a raw
    word that exists when it runs: entry actions read positions below the
    number of arguments, exit actions positions up to it. *)
Theorem actions_read_existing_words (func : Func)
    (Hsentinel : "$out" ∉ names (allArgs func))
    (Hret : ∀ r, ret func = Some r → "$out" ∈ requires r) :
  ∃ ok inputActions outputActions,
    computeActions func = Some (ok, inputActions, outputActions)
    ∧ Forall (λ act, action_index act < length (args func)) inputActions
    ∧ Forall (λ act, action_index act < S (length (args func))) outputActions.
Proof.
  destruct (computeActions_unfold func) as (sat1 & ia & sat2 & oa & H1 & H2 & ->).
  eexists _, ia, oa. split; [done|].
  pose proof (entry_loop_skips_sentinel _ _ _ _ Hsentinel H1) as Hexit.
  destruct (doWhile_scheduled _ _ _ _ H1) as (_ & _ & _ & Htie1).
  destruct (doWhile_scheduled _ _ _ _ H2) as (_ & _ & _ & Htie2).
  simpl in Htie1, Htie2.
  assert (Hlt : ∀ act, act ∈ ia ++ oa → action_index act < length (allArgs func)).
  { intros act Hact.
    assert (∃ a, allArgs func !! action_index act = Some a
                 ∧ act = computeAction a (action_index act)) as (a & Ha & _).
    { apply elem_of_app in Hact as [Hact|Hact];
        [rewrite Forall_forall in Htie1|rewrite Forall_forall in Htie2]; eauto. }
    by apply lookup_lt_Some in Ha. }
  rewrite length_allArgs in Hlt. split; apply Forall_forall; intros act Hact.
  - assert (Hin : act ∈ ia ++ oa) by (apply elem_of_app; by left).
    specialize (Hlt act Hin).
    destruct (ret func) as [r|] eqn:Hr; [|lia].
    destruct (decide (action_index act = length (args func))) as [Heq|]; [|lia].
    exfalso. apply (Hexit (length (args func)) r).
    + unfold allArgs. rewrite Hr, lookup_app_r by lia.
      by rewrite Nat.sub_diag.
    + by apply Hret.
    + rewrite <- Heq. apply list_elem_of_fmap. eauto.
  - assert (Hin : act ∈ ia ++ oa) by (apply elem_of_app; by right).
    specialize (Hlt act Hin). destruct (ret func); lia.
Qed.

Lemma actions_read_existing_words_witness :
  ∃ ok inputActions outputActions,
    computeActions roundTrip = Some (ok, inputActions, outputActions)
    ∧ Forall (λ act, action_index act < length (args roundTrip)) inputActions
    ∧ Forall (λ act, action_index act < S (length (args roundTrip))) outputActions.
Proof.
  apply (actions_read_existing_words roundTrip).
  - vm_compute. set_solver.
  - intros r [= <-]. vm_compute. set_solver.
Defined.

Lemma field_set_ne (k n : string) (v : Value) (e : Event.t) :
  k ≠ n → fieldOf k (Event.set n v e) = fieldOf k e.
Proof.
  intros Hne. unfold fieldOf, Event.set.
  destruct (decide (n = "result")) as [->|Hn], (decide (k = "result")) as [->|Hk];
    simpl; try done.
  by apply Obj_lookupOwn_set_ne.
Qed.

(** [get] returns the event's own field or, without one, what [args]
    inherits from its prototype. *)
Lemma get_field (k : string) (e : Event.t) :
  Event.get k e
  = match fieldOf k e with
    | Some v => v
    | None => if decide (k = "result") then VUndefined
              else Obj.inherited k (Obj.proto (Event.args e))
    end.
Proof.
  unfold Event.get, fieldOf, Obj.get.
  destruct (decide (k = "result")); [by destruct (Event.result e)|done].
Qed.

Lemma proto_set_ne (n : string) (v : Value) (e : Event.t) :
  n ≠ "__proto__" →
  Obj.proto (Event.args (Event.set n v e)) = Obj.proto (Event.args e).
Proof.
  intros Hn. unfold Event.set.
  destruct (decide (n = "result")); [done|]. simpl.
  by rewrite Obj_set_ordinary.
Qed.

Lemma has_field (k : string) (e : Event.t) :
  Event.has k e ↔ is_Some (fieldOf k e).
Proof. unfold Event.has, fieldOf. by destruct (decide (k = "result")). Qed.

Section ActionFacts.
Context {S : Type} (respond : S → MemCall → (Exn + Value) * S).

(** An action that returns has left the event as it was or has set the
    field of its own name. *)
Lemma runAction_sets_own_name (a : Action) (values : list Value)
    (event event' : Event.t) (s s' : S) (calls : list MemCall) :
  run respond (runAction a values event) s = (inr event', calls, s') →
  event' = event ∨ ∃ v, event' = Event.set (action_name a) v event.
Proof.
  destruct a as [i n p|i n p c|i n p b|i n p b c]; simpl;
    unfold readValue, readValueConditionally, readValueWithDependentType,
      readValueWithDependentTypeConditionally; rewrite run_andThen.
  - destruct (run respond (p _ _) s) as [[[e|v] cs] s1]; [done|].
    simpl. intros [= <- _ _]. eauto.
  - destruct (run respond (predicate c _) s) as [[[e|r] cs] s1]; [done|].
    destruct (truthy r); simpl; [|intros [= <- _ _]; by left].
    rewrite run_andThen.
    destruct (run respond (p _ _) s1) as [[[e|v] cs'] s2]; [done|].
    simpl. intros [= <- _ _]. eauto.
  - destruct (run respond (p _ _) s) as [[[e|v] cs] s1]; [done|].
    simpl. intros [= <- _ _]. eauto.
  - destruct (run respond (predicate c _) s) as [[[e|r] cs] s1]; [done|].
    destruct (truthy r); simpl; [|intros [= <- _ _]; by left].
    rewrite run_andThen.
    destruct (run respond (p _ _) s1) as [[[e|v] cs'] s2]; [done|].
    simpl. intros [= <- _ _]. eauto.
Qed.

End ActionFacts.

Lemma runActions_frame {S} (respond : S → MemCall → (Exn + Value) * S)
    (actions : list Action) (values : list Value) (key : string) :
  key ∉ action_name <$> actions →
  ∀ (event event' : Event.t) (s s' : S) (calls : list MemCall),
  run respond (runActions actions values event) s = (inr event', calls, s') →
  fieldOf key event' = fieldOf key event ∧ Event.name event' = Event.name event.
Proof.
  induction actions as [|a rest IH]; intros Hother event event' s s' calls; simpl.
  { by intros [= <- _ _]. }
  rewrite run_andThen.
  destruct (run respond (runAction a values event) s)
    as [[[e|ev1] cs] s1] eqn:Hrun; [done|].
  destruct (run respond (runActions rest values ev1) s1)
    as [[[e|ev2] cs'] s2] eqn:Hrest; [done|].
  intros [= <- _ _].
  rewrite fmap_cons in Hother. apply not_elem_of_cons in Hother as [Hne Hrest'].
  destruct (IH Hrest' _ _ _ _ _ Hrest) as [-> ->].
  apply runAction_sets_own_name in Hrun as [->|[v ->]]; [done|].
  split; [by apply field_set_ne|].
  unfold Event.set. by destruct (decide (action_name a = "result")).
Qed.

Lemma runActions_name {S} (respond : S → MemCall → (Exn + Value) * S)
    (actions : list Action) (values : list Value) :
  ∀ (event event' : Event.t) (s s' : S) (calls : list MemCall),
  run respond (runActions actions values event) s = (inr event', calls, s') →
  Event.name event' = Event.name event.
Proof.
  induction actions as [|a rest IH]; intros event event' s s' calls; simpl.
  { by intros [= <- _ _]. }
  rewrite run_andThen.
  destruct (run respond (runAction a values event) s)
    as [[[e|ev1] cs] s1] eqn:Hrun; [done|].
  destruct (run respond (runActions rest values ev1) s1)
    as [[[e|ev2] cs'] s2] eqn:Hrest; [done|].
  intros [= <- _ _]. rewrite (IH _ _ _ _ _ Hrest).
  apply runAction_sets_own_name in Hrun as [->|[v ->]]; [done|].
  unfold Event.set. by destruct (decide (action_name a = "result")).
Qed.

(** Actions none of which is named ["__proto__"] leave the prototype of
    [args] alone. *)
Lemma runActions_proto {S} (respond : S → MemCall → (Exn + Value) * S)
    (actions : list Action) (values : list Value) :
  "__proto__" ∉ action_name <$> actions →
  ∀ (event event' : Event.t) (s s' : S) (calls : list MemCall),
  run respond (runActions actions values event) s = (inr event', calls, s') →
  Obj.proto (Event.args event') = Obj.proto (Event.args event).
Proof.
  induction actions as [|a rest IH]; intros Hother event event' s s' calls; simpl.
  { by intros [= <- _ _]. }
  rewrite run_andThen.
  destruct (run respond (runAction a values event) s)
    as [[[e|ev1] cs] s1] eqn:Hrun; [done|].
  destruct (run respond (runActions rest values ev1) s1)
    as [[[e|ev2] cs'] s2] eqn:Hrest; [done|].
  intros [= <- _ _].
  rewrite fmap_cons in Hother. apply not_elem_of_cons in Hother as [Hne Hrest'].
  rewrite (IH Hrest' _ _ _ _ _ Hrest).
  apply runAction_sets_own_name in Hrun as [->|[v ->]]; [done|].
  by apply proto_set_ne.
Qed.

(** X14: a list of actions that runs to its end changes only fields that
    one of its actions names: any other field is as before, present or
    absent, and so is the event's name.  Unless one of the actions is named
    ["__proto__"], the prototype of [args] is as before too, and [get]
    returns for any other key what it returned before. *)
Theorem actions_write_own_fields {S} (respond : S → MemCall → (Exn + Value) * S)
    (actions : list Action) (values : list Value) (key : string)
    (Hother : key ∉ action_name <$> actions) :
  ∀ (event event' : Event.t) (s s' : S) (calls : list MemCall),
  run respond (runActions actions values event) s = (inr event', calls, s') →
  fieldOf key event' = fieldOf key event
  ∧ (Event.has key event' ↔ Event.has key event)
  ∧ Event.name event' = Event.name event
  ∧ ("__proto__" ∉ action_name <$> actions →
     Obj.proto (Event.args event') = Obj.proto (Event.args event)
     ∧ Event.get key event' = Event.get key event).
Proof.
  intros event event' s s' calls Hrun.
  destruct (runActions_frame respond actions values key Hother _ _ _ _ _ Hrun)
    as [Hf Hn].
  split_and!; [done| |done|].
  - by rewrite !has_field, Hf.
  - intros Hproto.
    pose proof (runActions_proto respond actions values Hproto _ _ _ _ _ Hrun)
      as Hp.
    split; [done|]. by rewrite !get_field, Hf, Hp.
Qed.

Lemma actions_write_own_fields_witness :
  fieldOf "a" (Event.set "b" (VNum 64) (Event.set "a" (VNum 5) (Event.new "f")))
  = fieldOf "a" (Event.set "a" (VNum 5) (Event.new "f")).
Proof.
  apply (actions_write_own_fields quietHost
           [computeAction (argOut "b" (Plain INT) (Some (when "a" isPositive))) 1]
           [VPtr 5; VPtr 64] "a" ltac:(vm_compute; set_solver)
           (Event.set "a" (VNum 5) (Event.new "f")) _ tt tt []).
  reflexivity.
Defined.

(** A binding that names the property ["__proto__"] creates no property of
    the type parameters: the bound value, when it is an object, becomes
    their prototype, and [length] is read through it. *)
Example bound_proto_is_not_a_property :
  Obj.own (Obj.set "__proto__" (Event.get "constructor" (Event.new "f"))
             Obj.empty) = []
  ∧ parameters_length (C := MemCall)
      (Some (Obj.set "__proto__" (Event.get "constructor" (Event.new "f"))
               Obj.empty))
    = Ret (VInherited (VObjectPrototypeMember "constructor") "length").
Proof. by split. Qed.

(** X16: for a non-null pointer, the action of a dependent-typed byte
    buffer or string whose binding does not name the property
    ["__proto__"] makes exactly one memory read, at the raw word, and
    passes as length what [event.get] returns for the binding's source when
    the bound property is [length], and [undefined] when it is another
    property; the answer is passed to [event.set] under the descriptor's
    name. *)
Theorem dependent_read_passes_bound_value {S}
    (respond : S → MemCall → (Exn + Value) * S)
    (direction : Direction) (name prop source : string)
    (values : list Value) (index : nat) (p : Z) (event : Event.t) (s : S)
    (Hword : values !! index = Some (VPtr p)) (Hp : p ≠ 0%Z)
    (Hprop : prop ≠ "__proto__") :
  let len := if decide (prop = "length")
                then Event.get source event else VUndefined in
  let outcome (c : MemCall) :=
    (match (respond s c).1 with
     | inl e => inl e
     | inr v => inr (Event.set name v event)
     end, [c], (respond s c).2) in
  run respond
    (runAction (computeAction
       (arg direction name (Dependent BYTE_ARRAY (bind prop source)) None) index)
       values event) s
  = outcome (ReadByteArray (VPtr p) len)
  ∧ run respond
      (runAction (computeAction
         (arg direction name (Dependent UTF8 (bind prop source)) None) index)
         values event) s
    = outcome (ReadUtf8String (VPtr p) len)
  ∧ run respond
      (runAction (computeAction
         (arg direction name (Dependent UTF16 (bind prop source)) None) index)
         values event) s
    = outcome (ReadUtf16String (VPtr p) len).
Proof.
  intros len outcome.
  assert (Hnull : (p =? 0)%Z = false) by by apply Z.eqb_neq.
  assert (Hlen : Obj.get "length"
                   (Obj.set prop (Event.get source event) Obj.empty) = len).
  { subst len. rewrite Obj_set_ordinary by done.
    unfold Obj.get, Obj.lookupOwn. simpl.
    by destruct (decide (prop = "length")). }
  subst outcome.
  split_and!; simpl; unfold readValueWithDependentType, nth_value;
    rewrite Hword; simpl; rewrite Hnull; simpl; rewrite Hlen;
    by destruct (respond s _) as [[e|v] s1].
Qed.

Lemma dependent_read_passes_bound_value_witness :
  run quietHost
    (runAction (computeAction
       (arg IN "buf" (Dependent BYTE_ARRAY (bind "length" "len")) None) 1)
       [VPtr 3; VPtr 4096] (Event.set "len" (VNum 3) (Event.new "h"))) tt
  = (inr (Event.set "buf" VUndefined (Event.set "len" (VNum 3) (Event.new "h"))),
     [ReadByteArray (VPtr 4096) (VNum 3)], tt).
Proof.
  apply (dependent_read_passes_bound_value quietHost IN "buf" "length" "len"
           [VPtr 3; VPtr 4096] 1 4096
           (Event.set "len" (VNum 3) (Event.new "h")) tt);
    [reflexivity|lia|done].
Defined.

(** X17: an action whose position lies beyond the captured raw words
    finds [undefined]: the numeric types and the pointer types with an inner
    reader throw a [TypeError], and plain [POINTER] stores [undefined]. *)
Theorem missing_raw_word (values : list Value) (index : nat) (name : string)
    (event : Event.t) (Hmissing : length values ≤ index) :
  (∀ T, T ∈ [BOOL; BYTE; SHORT; INT] →
        runAction (ReadValue index name (parse T)) values event
        = Throw (TypeError "rawValue.toInt32 is not a function"))
  ∧ (∀ pointee,
        runAction (ReadValue index name (parse (pointer (Some pointee)))) values event
        = Throw (TypeError "rawValue.isNull is not a function"))
  ∧ runAction (ReadValue index name (parse POINTER)) values event
    = Ret (Event.set name VUndefined event).
Proof.
  assert (Hnone : nth_value values index = VUndefined).
  { unfold nth_value. by rewrite lookup_ge_None_2. }
  split_and!.
  - intros T HT. simpl. unfold readValue. rewrite Hnone.
    repeat (apply elem_of_cons in HT as [->|HT]; [done|]).
    by apply elem_of_nil in HT.
  - intros pointee. simpl. unfold readValue. by rewrite Hnone.
  - simpl. unfold readValue. by rewrite Hnone.
Qed.

Lemma missing_raw_word_witness :
  runAction (ReadValue 2 "result" (parse POINTER)) [VPtr 1; VPtr 2] (Event.new "f")
  = Ret (Event.set "result" VUndefined (Event.new "f")).
Proof.
  apply (missing_raw_word [VPtr 1; VPtr 2] 2 "result" (Event.new "f")).
  simpl. lia.
Defined.

(** Running code of the memory layer inside a hook is running it on the
    host restricted to memory calls. *)
Lemma run_lift {C D A S} (respond : S → D → (Exn + Value) * S)
    (inj : C → D) (p : Prog C A) (s : S) :
  run respond (lift inj p) s
  = let '(o, calls, s') := run (λ s c, respond s (inj c)) p s in
    (o, inj <$> calls, s').
Proof.
  revert s. induction p as [a|e|c k IH]; intros s; simpl; [done..|].
  destruct (respond s (inj c)) as [r s1]. rewrite IH.
  by destruct (run _ (k r) s1) as [[o calls] s2].
Qed.

(** X15: without user hooks, an event handed to [onEvent] carries the
    function's name and only fields named by the compiled actions. *)
Theorem delivered_event_has_declared_fields {S}
    (respond : S → HookCall → (Exn + Value) * S)
    (name : string) (numArgs : nat) (inputActions outputActions : list Action)
    (args : nat → Z) (retval : Z) (s : S) (ev : Event.t)
    (Hdelivered :
       OnEvent ev ∈ (run respond
                       (invoke (makeHook noHooks name numArgs
                                  inputActions outputActions) args retval) s).1.2) :
  Event.name ev = name
  ∧ ∀ key, Event.has key ev →
           key ∈ action_name <$> (inputActions ++ outputActions).
Proof.
  set (respondM := λ s c, respond s (Memory c)).
  assert (Hno : ∀ calls : list MemCall, OnEvent ev ∉ Memory <$> calls).
  { intros calls (c & [=] & _)%list_elem_of_fmap. }
  unfold invoke in Hdelivered. cbn [hook_onEnter hook_onLeave makeHook] in Hdelivered.
  rewrite !run_andThen, run_lift in Hdelivered. fold respondM in Hdelivered.
  destruct (run respondM (runActions inputActions _ (Event.new name)) s)
    as [[[e|ev1] calls1] s1] eqn:H1; cbn [fst snd] in Hdelivered.
  { by apply Hno in Hdelivered. }
  simpl in Hdelivered. rewrite !run_andThen, run_lift in Hdelivered.
  fold respondM in Hdelivered.
  destruct (run respondM (runActions outputActions _ ev1) s1)
    as [[[e|ev2] calls2] s2] eqn:H2; simpl in Hdelivered.
  { rewrite !app_nil_r, <- fmap_app in Hdelivered. by apply Hno in Hdelivered. }
  assert (Hev : ev = ev2).
  { destruct (respond s2 (OnEvent ev2)) as [[e|v] s3]; simpl in Hdelivered;
      rewrite ?app_nil_r in Hdelivered;
      repeat (apply elem_of_app in Hdelivered as [Hdelivered|Hdelivered]);
      try (by apply Hno in Hdelivered);
      apply list_elem_of_singleton in Hdelivered; congruence. }
  subst ev2.
  split.
  - rewrite (runActions_name respondM _ _ _ _ _ _ _ H2).
    by rewrite (runActions_name respondM _ _ _ _ _ _ _ H1).
  - intros key Hhas.
    destruct (decide (key ∈ action_name <$> (inputActions ++ outputActions)))
      as [|Hkey]; [done|]. exfalso.
    rewrite fmap_app in Hkey. apply not_elem_of_app in Hkey as [Hk1 Hk2].
    destruct (runActions_frame respondM _ _ key Hk1 _ _ _ _ _ H1) as [Hf1 _].
    destruct (runActions_frame respondM _ _ key Hk2 _ _ _ _ _ H2) as [Hf2 _].
    apply has_field in Hhas. rewrite Hf2, Hf1 in Hhas.
    unfold fieldOf, Event.new in Hhas. simpl in Hhas.
    destruct (decide (key = "result")); by apply is_Some_None in Hhas.
Qed.

Lemma delivered_event_has_declared_fields_witness :
  Event.name {| Event.name := "f";
                Event.args := {| Obj.own := [("a", VNum (-1))];
                                 Obj.proto := VObjectPrototype |};
                Event.result := Some (VNum 7) |} = "f"
  ∧ ∀ key,
      Event.has key {| Event.name := "f";
                       Event.args := {| Obj.own := [("a", VNum (-1))];
                                  Obj.proto := VObjectPrototype |};
                       Event.result := Some (VNum 7) |} →
      key ∈ action_name <$>
              ([computeAction (argIn "a" (Plain INT) None) 0]
               ++ [computeAction (argOut "b" (Plain INT) (Some (when "a" isPositive))) 1;
                   computeAction (retval (Plain INT) None) 2]).
Proof.
  apply (delivered_event_has_declared_fields quietHost "f" 2
           [computeAction (argIn "a" (Plain INT) None) 0]
           [computeAction (argOut "b" (Plain INT) (Some (when "a" isPositive))) 1;
            computeAction (retval (Plain INT) None) 2]
           (λ i, match i with O => -1 | _ => 64 end)%Z 7 tt).
  vm_compute. left.
Defined.

(** ** Further properties of the value types and of [Event] *)

Lemma int32_range (p : Z) : (- 2 ^ 31 ≤ int32 p < 2 ^ 31)%Z.
Proof.
  unfold int32. pose proof (Z.mod_pos_bound (p + 2 ^ 31) (2 ^ 32) ltac:(lia)). lia.
Qed.

Lemma int32_congruent (p : Z) (n : Z) :
  (0 ≤ n ≤ 32)%Z → (int32 p mod 2 ^ n = p mod 2 ^ n)%Z.
Proof.
  intros Hn. unfold int32. rewrite (Z.mod_eq (p + 2 ^ 31) (2 ^ 32)) by lia.
  replace (p + 2 ^ 31 - 2 ^ 32 * ((p + 2 ^ 31) / 2 ^ 32) - 2 ^ 31)%Z
    with (p + (- 2 ^ (32 - n) * ((p + 2 ^ 31) / 2 ^ 32)) * 2 ^ n)%Z.
  - apply Z_mod_plus_full.
  - replace (2 ^ 32)%Z with (2 ^ (32 - n) * 2 ^ n)%Z
      by (rewrite <- Z.pow_add_r by lia; f_equal; lia).
    ring.
Qed.

(** X18: the numeric types decode the raw word itself: [BYTE] gives its
    low 8 bits (0..255), [SHORT] its low 16 bits (0..65535), [INT] its low 32
    bits as a signed number, [BOOL] whether its low 32 bits are non-zero. *)
Theorem numeric_types_narrow_the_word (p : Z) (parameters : Parameters) :
  parse BYTE (VPtr p) parameters = Ret (VNum (p mod 2 ^ 8))
  ∧ parse SHORT (VPtr p) parameters = Ret (VNum (p mod 2 ^ 16))
  ∧ parse INT (VPtr p) parameters = Ret (VNum (int32 p))
  ∧ parse BOOL (VPtr p) parameters = Ret (VBool (negb (p mod 2 ^ 32 =? 0)%Z))
  ∧ (0 ≤ p mod 2 ^ 8 < 256)%Z
  ∧ (0 ≤ p mod 2 ^ 16 < 65536)%Z
  ∧ (- 2 ^ 31 ≤ int32 p < 2 ^ 31)%Z
  ∧ (int32 p mod 2 ^ 32 = p mod 2 ^ 32)%Z
  ∧ int32 (int32 p) = int32 p.
Proof.
  assert (Hbyte : Z.land (int32 p) 255 = (p mod 2 ^ 8)%Z).
  { change 255%Z with (Z.ones 8). rewrite Z.land_ones by lia.
    apply int32_congruent. lia. }
  assert (Hshort : Z.land (int32 p) 65535 = (p mod 2 ^ 16)%Z).
  { change 65535%Z with (Z.ones 16). rewrite Z.land_ones by lia.
    apply int32_congruent. lia. }
  assert (Hzero : (int32 p =? 0)%Z = (p mod 2 ^ 32 =? 0)%Z).
  { pose proof (int32_range p) as Hr.
    pose proof (int32_congruent p 32 ltac:(lia)) as Hc.
    destruct (Z.eqb_spec (int32 p) 0) as [H0|H0].
    - rewrite H0 in Hc. rewrite <- Hc. done.
    - symmetry. apply Z.eqb_neq. intros Hp. rewrite Hp in Hc.
      apply Z.mod_divide in Hc; [|lia]. destruct Hc as [q Hq]. lia. }
  assert (H8 : (0 ≤ p mod 2 ^ 8 < 256)%Z).
  { pose proof (Z.mod_pos_bound p (2 ^ 8) ltac:(lia)) as H.
    by change (2 ^ 8)%Z with 256%Z in H |- *. }
  assert (H16 : (0 ≤ p mod 2 ^ 16 < 65536)%Z).
  { pose proof (Z.mod_pos_bound p (2 ^ 16) ltac:(lia)) as H.
    by change (2 ^ 16)%Z with 65536%Z in H |- *. }
  assert (Hidem : int32 (int32 p) = int32 p).
  { pose proof (int32_range p) as Hr. unfold int32 at 1.
    rewrite Z.mod_small by lia. lia. }
  pose proof (int32_range p) as [? ?].
  pose proof (int32_congruent p 32 ltac:(lia)).
  destruct H8, H16.
  split_and!; simpl; rewrite ?Hbyte, ?Hshort, ?Hzero; done.
Qed.


